(** * MediaExtractorPluginHelper.h: a shallow embedding

    The header has three parts, modelled in three modules below:

    - [DataSource]: [DataSourceHelper], the big-endian field readers
      over a [CDataSource];
    - [Adapter]: [MediaExtractorPluginHelper] and [wrap], which turns an
      extractor object into the C struct [CMediaExtractor] of function
      pointers;
    - [Uuid]: the [constexpr] parser [constUUID] behind the [UUID] macro.

    Integers of a fixed width are [Z] with the conversion written out
    ([to_uint]); bytes are [Byte.byte]; pointers are addresses in [Z]. *)

From Stdlib Require Import ZArith List Lia.
From Stdlib Require Import Strings.Byte Strings.Ascii Strings.String.
From stdpp Require Import base option gmap.

Local Open Scope Z_scope.

(** ** Machine integers *)

Definition off64_t := Z.
Definition size_t := Z.
Definition ssize_t := Z.
Definition status_t := Z.
Definition uint8_t := Z.
Definition uint16_t := Z.
Definition uint32_t := Z.
Definition uint64_t := Z.

(** Conversion to an unsigned type of [w] bits. *)
Definition to_uint (w : Z) (v : Z) : Z := v mod 2 ^ w.

(** The value of a [uint8_t] object holding the byte [b]. *)
Definition u8 (b : byte) : uint8_t := Z.of_N (Byte.to_N b).

(** [buf[i]] for a buffer that [readAt] filled.  Every index the readers
    use is below the size they requested. *)
Definition at_ (buf : list byte) (i : nat) : uint8_t := u8 (nth i buf x00).

(** Byte order of the machine the code is compiled for.  [ntohl] and the
    value of a multi-byte object read from memory depend on it. *)
Inductive byte_order := LittleEndian | BigEndian.

(** Most-significant byte first. *)
Definition big_endian (bs : list byte) : Z :=
  fold_left (fun acc b => acc * 256 + u8 b) bs 0.

(** Least-significant byte first. *)
Definition little_endian (bs : list byte) : Z :=
  fold_right (fun b acc => u8 b + 256 * acc) 0 bs.

(** The bytes [buf[0]], ..., [buf[n-1]]. *)
Definition bytes_at (buf : list byte) (n : nat) : list byte :=
  map (fun i => nth i buf x00) (seq 0 n).

(** The value of an unsigned integer object of [n] bytes whose storage
    holds the first [n] bytes of [buf]. *)
Definition load (host : byte_order) (n : nat) (buf : list byte) : Z :=
  let bs := bytes_at buf n in
  match host with
  | LittleEndian => little_endian bs
  | BigEndian => big_endian bs
  end.

(** Reversal of the four bytes of a 32-bit value. *)
Definition bswap32 (v : uint32_t) : uint32_t :=
  Z.lor (Z.lor (Z.shiftr (Z.land v 0xff000000) 24)
               (Z.shiftr (Z.land v 0x00ff0000) 8))
        (Z.lor (Z.shiftl (Z.land v 0x0000ff00) 8)
               (Z.shiftl (Z.land v 0x000000ff) 24)).

(** [ntohl] of <arpa/inet.h>: network (big-endian) to host order. *)
Definition ntohl (host : byte_order) (v : uint32_t) : uint32_t :=
  match host with
  | BigEndian => v
  | LittleEndian => bswap32 v
  end.

(** ** DataSourceHelper *)

Module DataSource.

(** A program that talks to the data source: it returns, or it calls
    [readAt(offset, data, size)] and goes on with the returned count
    and the contents of [data] after the call. *)
Inductive io (A : Type) : Type :=
| Ret (a : A)
| ReadAt (offset : off64_t) (size : size_t) (k : ssize_t -> list byte -> io A).
Arguments Ret {A} a.
Arguments ReadAt {A} offset size k.

Fixpoint io_bind {A B : Type} (f : A -> io B) (p : io A) : io B :=
  match p with
  | Ret a => f a
  | ReadAt offset size k => ReadAt offset size (fun n buf => io_bind f (k n buf))
  end.

#[global] Instance io_mret : MRet io := @Ret.
#[global] Instance io_mbind : MBind io := @io_bind.

(** [DataSourceHelper::readAt]: passed on to [mSource->readAt]. *)
Definition readAt (offset : off64_t) (size : size_t) : io (ssize_t * list byte) :=
  ReadAt offset size (fun n buf => Ret (n, buf)).

(** [CDataSource]: the handle's state is [H]; [readAt] returns the count,
    the contents of the destination buffer after the call, and the new
    state behind the handle. *)
Record CDataSource (H : Type) : Type := {
  cds_readAt : H -> off64_t -> size_t -> ssize_t * list byte * H;
}.
Arguments cds_readAt {H} c h offset size.

(** One call of [readAt] as the source saw it. *)
Definition call : Type := off64_t * size_t.

(** Running a program against a source: the result, the final state of
    the source and the calls of [readAt] made, oldest first. *)
Fixpoint exec {H A : Type} (src : CDataSource H) (p : io A) (h : H)
  : A * H * list call :=
  match p with
  | Ret a => (a, h, [])
  | ReadAt offset size k =>
      let '(n, buf, h1) := cds_readAt src h offset size in
      let '(a, h2, calls) := exec src (k n buf) h1 in
      (a, h2, (offset, size) :: calls)
  end.

(** What a caller sees of a run: the boolean returned and the value of
    [*x] afterwards; the calls of [readAt]; the state of the source. *)
Definition returned {H : Type} (e : bool * Z * H * list call) : bool :=
  fst (fst (fst e)).
Definition out {H : Type} (e : bool * Z * H * list call) : Z :=
  snd (fst (fst e)).
Definition calls {H A : Type} (e : A * H * list call) : list call := snd e.
Definition handle {H A : Type} (e : A * H * list call) : H := snd (fst e).

Section Readers.

Variable host : byte_order.

(** Each reader takes the value [*x] holds before the call and returns
    the boolean together with the value [*x] holds after it. *)

Definition getUInt16 (offset : off64_t) (x : uint16_t) : io (bool * uint16_t) :=
  let x := 0 in
  '(n, byte) ← readAt offset 2;
  if negb (n =? 2) then mret (false, x) else
  let x := to_uint 16 (Z.lor (Z.shiftl (at_ byte 0) 8) (at_ byte 1)) in
  mret (true, x).

Definition getUInt24 (offset : off64_t) (x : uint32_t) : io (bool * uint32_t) :=
  let x := 0 in
  '(n, byte) ← readAt offset 3;
  if negb (n =? 3) then mret (false, x) else
  let x := to_uint 32 (Z.lor (Z.lor (Z.shiftl (at_ byte 0) 16)
                                    (Z.shiftl (at_ byte 1) 8))
                             (at_ byte 2)) in
  mret (true, x).

Definition getUInt32 (offset : off64_t) (x : uint32_t) : io (bool * uint32_t) :=
  let x := 0 in
  '(n, buf) ← readAt offset 4;
  if negb (n =? 4) then mret (false, x) else
  let tmp := load host 4 buf in
  let x := ntohl host tmp in
  mret (true, x).

Definition getUInt64 (offset : off64_t) (x : uint64_t) : io (bool * uint64_t) :=
  let x := 0 in
  '(n, buf) ← readAt offset 8;
  if negb (n =? 8) then mret (false, x) else
  let tmp := load host 8 buf in
  let x := Z.lor (to_uint 64 (Z.shiftl (ntohl host (to_uint 32 (Z.land tmp 0xffffffff))) 32))
                 (ntohl host (to_uint 32 (Z.shiftr tmp 32))) in
  mret (true, x).

(** A local variable without an initialiser.  The readers below pass its
    address to a callee that stores to it before anything reads it. *)
Definition indeterminate : Z := 0.

Definition getUInt16Var (offset : off64_t) (x : uint16_t) (size : size_t)
  : io (bool * uint16_t) :=
  if size =? 2 then getUInt16 offset x else
  if size =? 1 then
    '(n, buf) ← readAt offset 1;
    let tmp := at_ buf 0 in
    if n =? 1 then mret (true, tmp) else mret (false, x)
  else mret (false, x).

Definition getUInt32Var (offset : off64_t) (x : uint32_t) (size : size_t)
  : io (bool * uint32_t) :=
  if size =? 4 then getUInt32 offset x else
  if size =? 2 then
    '(ok, tmp) ← getUInt16 offset indeterminate;
    if ok : bool then mret (true, tmp) else mret (false, x)
  else mret (false, x).

Definition getUInt64Var (offset : off64_t) (x : uint64_t) (size : size_t)
  : io (bool * uint64_t) :=
  if size =? 8 then getUInt64 offset x else
  if size =? 4 then
    '(ok, tmp) ← getUInt32 offset indeterminate;
    if ok : bool then mret (true, tmp) else mret (false, x)
  else mret (false, x).

End Readers.

End DataSource.

(** The four fixed-width readers and the three variable-width ones, named,
    so that a statement can range over them. *)
Module Reader.

Inductive fixed := UInt16 | UInt24 | UInt32 | UInt64.

(** Number of bytes the reader asks the source for. *)
Definition nbytes (r : fixed) : Z :=
  match r with UInt16 => 2 | UInt24 => 3 | UInt32 => 4 | UInt64 => 8 end.

Definition get (host : byte_order) (r : fixed)
  : off64_t -> Z -> DataSource.io (bool * Z) :=
  match r with
  | UInt16 => DataSource.getUInt16
  | UInt24 => DataSource.getUInt24
  | UInt32 => DataSource.getUInt32 host
  | UInt64 => DataSource.getUInt64 host
  end.

Inductive var := UInt16Var | UInt32Var | UInt64Var.

(** Size in bytes of the output type. *)
Definition full_width (r : var) : Z :=
  match r with UInt16Var => 2 | UInt32Var => 4 | UInt64Var => 8 end.

Definition half_width (r : var) : Z :=
  match r with UInt16Var => 1 | UInt32Var => 2 | UInt64Var => 4 end.

Definition get_var (host : byte_order) (r : var)
  : off64_t -> Z -> size_t -> DataSource.io (bool * Z) :=
  match r with
  | UInt16Var => DataSource.getUInt16Var
  | UInt32Var => DataSource.getUInt32Var host
  | UInt64Var => DataSource.getUInt64Var host
  end.

End Reader.

(** A source over a fixed sequence of bytes, for examples: [readAt] copies
    what is available from [offset] on, at most [size] bytes, and returns
    how many; the rest of the destination keeps the bytes [junk] it held.
    Its state counts the calls. *)
Definition buffer_source (content : list byte) (junk : byte)
  : DataSource.CDataSource nat :=
  {| DataSource.cds_readAt := fun h offset size =>
       if (offset <? 0) || (Z.of_nat (length content) <? offset)
       then (-1, repeat junk (Z.to_nat size), S h)
       else
         let got := firstn (Z.to_nat size) (skipn (Z.to_nat offset) content) in
         (Z.of_nat (length got),
          got ++ repeat junk (Z.to_nat size - length got), S h) |}.

(** ** MediaExtractorPluginHelper *)

Definition ptr := Z.
Definition NULL : ptr := 0.

Module Extractor.

(** [enum Flags]. *)
Definition CAN_SEEK_BACKWARD : Z := 1.
Definition CAN_SEEK_FORWARD : Z := 2.
Definition CAN_PAUSE : Z := 4.
Definition CAN_SEEK : Z := 8.

Section Class.

(** [MetaDataBase] and the status code [INVALID_OPERATION] are declared in
    headers outside this one. *)
Variable MetaDataBase : Type.
Variable INVALID_OPERATION : status_t.

(** A class derived from [MediaExtractorPluginHelper] whose objects have
    the fields [S]: a body for each pure virtual method, and a body for
    each of the other virtual methods the class overrides.  A method
    takes the object's fields and returns its result with the fields
    after the call; [meta] is passed by reference and returned likewise;
    [casToken] is the array the pointer designates. *)
Record MediaExtractorPluginHelper (S : Type) : Type := {
  countTracks : S -> size_t * S;
  getTrack : size_t -> S -> ptr * S;
  getTrackMetaData :
    MetaDataBase -> size_t -> uint32_t -> S -> status_t * MetaDataBase * S;
  getMetaData : MetaDataBase -> S -> status_t * MetaDataBase * S;
  override_flags : option (S -> uint32_t);
  override_setMediaCas : option (list byte -> size_t -> S -> status_t * S);
  override_name : option (S -> string * S);
}.
Arguments countTracks {S} _ _.
Arguments getTrack {S} _ _ _.
Arguments getTrackMetaData {S} _ _ _ _ _.
Arguments getMetaData {S} _ _ _.
Arguments override_flags {S} _.
Arguments override_setMediaCas {S} _.
Arguments override_name {S} _.

(** The virtual methods with a body in the base class: the override when
    the class has one, the body of the base class otherwise. *)
Definition flags {S} (c : MediaExtractorPluginHelper S) : S -> uint32_t :=
  match override_flags c with
  | Some f => f
  | None => fun _ =>
      to_uint 32 (Z.lor (Z.lor (Z.lor CAN_SEEK_BACKWARD CAN_SEEK_FORWARD)
                               CAN_SEEK)
                        CAN_PAUSE)
  end.

Definition setMediaCas {S} (c : MediaExtractorPluginHelper S)
  : list byte -> size_t -> S -> status_t * S :=
  match override_setMediaCas c with
  | Some f => f
  | None => fun _ _ s => (INVALID_OPERATION, s)
  end.

Definition name {S} (c : MediaExtractorPluginHelper S) : S -> string * S :=
  match override_name c with
  | Some f => f
  | None => fun s => ("<unspecified>"%string, s)
  end.

(** An object: its class and its fields. *)
Record object : Type := Object {
  fields : Type;
  class : MediaExtractorPluginHelper fields;
  state : fields;
}.

End Class.

Arguments countTracks {MetaDataBase S} _ _.
Arguments getTrack {MetaDataBase S} _ _ _.
Arguments getTrackMetaData {MetaDataBase S} _ _ _ _ _.
Arguments getMetaData {MetaDataBase S} _ _ _.
Arguments override_flags {MetaDataBase S} _.
Arguments override_setMediaCas {MetaDataBase S} _.
Arguments override_name {MetaDataBase S} _.
Arguments flags {MetaDataBase S} c _.
Arguments setMediaCas {MetaDataBase} INVALID_OPERATION {S} c _ _ _.
Arguments name {MetaDataBase S} c _.
Arguments Object {MetaDataBase fields} class state.
Arguments fields {MetaDataBase} _.
Arguments class {MetaDataBase} _.
Arguments state {MetaDataBase} _.

End Extractor.

Module Adapter.

Section Wrap.

Variable MetaDataBase : Type.
Variable INVALID_OPERATION : status_t.

(** The extractor objects alive, by address. *)
Abbreviation heap := (gmap ptr (Extractor.object MetaDataBase)).

(** [data] cast to a pointer to [MediaExtractorPluginHelper], then
    [->m(...)]: the method [m] of the class of the object at [data], run
    on that object.  There is no result when no object lives at [data]. *)
Definition method_call {R : Type} (data : ptr)
    (m : forall S, Extractor.MediaExtractorPluginHelper MetaDataBase S -> S -> R * S)
    (h : heap) : option (R * heap) :=
  match h !! data with
  | Some o =>
      let '(r, s) := m _ (Extractor.class o) (Extractor.state o) in
      Some (r, <[data := Extractor.Object (Extractor.class o) s]> h)
  | None => None
  end.

(** [delete] of [data] cast to a pointer to [MediaExtractorPluginHelper]:
    nothing for a null pointer; otherwise the object at [data] is
    destroyed. *)
Definition delete_extractor (data : ptr) (h : heap) : option heap :=
  if decide (data = NULL) then Some h
  else match h !! data with
       | Some _ => Some (delete data h)
       | None => None
       end.

(** Modelled from the spec: [CMediaExtractor] is declared in
    MediaExtractorPluginApi.h, which is not among the sources: an opaque
    data pointer and the function-pointer slots free, countTracks,
    getTrack, getTrackMetaData, getMetaData, flags, setMediaCas, name, with
    the parameters [wrap] gives its lambdas.  A null function pointer is
    [None]. *)
Record CMediaExtractor : Type := {
  data : ptr;
  free : option (ptr -> heap -> option heap);
  countTracks : option (ptr -> heap -> option (size_t * heap));
  getTrack : option (ptr -> size_t -> heap -> option (ptr * heap));
  getTrackMetaData :
    option (ptr -> MetaDataBase -> size_t -> uint32_t -> heap ->
            option (status_t * MetaDataBase * heap));
  getMetaData :
    option (ptr -> MetaDataBase -> heap -> option (status_t * MetaDataBase * heap));
  flags : option (ptr -> heap -> option (uint32_t * heap));
  setMediaCas :
    option (ptr -> list byte -> size_t -> heap -> option (status_t * heap));
  name : option (ptr -> heap -> option (string * heap));
}.

(** Memory: the extractor objects, the [CMediaExtractor] structs that
    [malloc] handed out, and how many more blocks [malloc] can serve. *)
Record memory : Type := {
  objects : heap;
  structs : gmap ptr CMediaExtractor;
  blocks_left : nat;
}.

(** [malloc(sizeof(CMediaExtractor))]: a null pointer when memory is
    exhausted, an address in use by nothing else otherwise. *)
Definition malloc (m : memory) : ptr * memory :=
  match blocks_left m with
  | O => (NULL, m)
  | S k =>
      (fresh ({[NULL]} ∪ dom (objects m) ∪ dom (structs m) : gset ptr),
       {| objects := objects m; structs := structs m; blocks_left := k |})
  end.

(** [wrap]: the address of the new struct and the memory with the struct
    in it.  When [malloc] returns a null pointer the stores through
    [wrapper] have no defined behaviour: no result. *)
Definition wrap (extractor : ptr) (m : memory) : option (ptr * memory) :=
  let '(wrapper, m) := malloc m in
  if decide (wrapper = NULL) then None else
  let s := {|
    data := extractor;
    free := Some (fun data => delete_extractor data);
    countTracks := Some (fun data =>
      method_call data (fun S c => Extractor.countTracks c));
    getTrack := Some (fun data index =>
      method_call data (fun S c => Extractor.getTrack c index));
    getTrackMetaData := Some (fun data meta index flags =>
      method_call data (fun S c => Extractor.getTrackMetaData c meta index flags));
    getMetaData := Some (fun data meta =>
      method_call data (fun S c => Extractor.getMetaData c meta));
    flags := Some (fun data =>
      method_call data (fun S c s => (Extractor.flags c s, s)));
    setMediaCas := Some (fun data casToken size =>
      method_call data (fun S c =>
        Extractor.setMediaCas INVALID_OPERATION c casToken size));
    name := Some (fun data =>
      method_call data (fun S c => Extractor.name c));
  |} in
  Some (wrapper,
        {| objects := objects m;
           structs := <[wrapper := s]> (structs m);
           blocks_left := blocks_left m |}).

(** What a call of a method on the object of class [c] at [this] leaves:
    the method's result [r], and the heap with the fields [s] the method
    left in the object. *)
Definition returning {R S : Type} (this : ptr)
    (c : Extractor.MediaExtractorPluginHelper MetaDataBase S)
    (rs : R * S) (h : heap) : option (R * heap) :=
  Some (fst rs, <[this := Extractor.Object c (snd rs)]> h).

End Wrap.

Arguments returning {MetaDataBase R S} this c rs h.
Arguments data {MetaDataBase} _.
Arguments free {MetaDataBase} _.
Arguments countTracks {MetaDataBase} _.
Arguments getTrack {MetaDataBase} _.
Arguments getTrackMetaData {MetaDataBase} _.
Arguments getMetaData {MetaDataBase} _.
Arguments flags {MetaDataBase} _.
Arguments setMediaCas {MetaDataBase} _.
Arguments name {MetaDataBase} _.
Arguments objects {MetaDataBase} _.
Arguments structs {MetaDataBase} _.
Arguments blocks_left {MetaDataBase} _.
Arguments method_call {MetaDataBase R} data m h.
Arguments delete_extractor {MetaDataBase} data h.
Arguments malloc {MetaDataBase} m.
Arguments wrap {MetaDataBase} INVALID_OPERATION extractor m.

End Adapter.

(** An extractor class for examples.  Its objects hold the number of
    tracks; metadata is a list of numbers; it overrides none of [flags],
    [setMediaCas], [name]. *)
Definition sample_class : Extractor.MediaExtractorPluginHelper (list Z) nat := {|
  Extractor.countTracks := fun s => (Z.of_nat s, s);
  Extractor.getTrack := fun index s =>
    (if index <? Z.of_nat s then 4096 + index else NULL, s);
  Extractor.getTrackMetaData := fun meta index flags s =>
    if index <? Z.of_nat s then (0, index :: flags :: meta, s)
    else (-1, meta, s);
  Extractor.getMetaData := fun meta s => (0, 7 :: meta, S s);
  Extractor.override_flags := None;
  Extractor.override_setMediaCas := None;
  Extractor.override_name := None;
|}.

(** A memory with one object of that class, with two tracks, at address
    64, and room for one more block. *)
Definition sample_memory : Adapter.memory (list Z) := {|
  Adapter.objects := {[ 64 := Extractor.Object sample_class 2%nat ]};
  Adapter.structs := ∅;
  Adapter.blocks_left := 1;
|}.

(** ** constUUID *)

Module Uuid.

(** What stops the build. *)
Inductive build_error : Type :=
| static_assert (message : string)
    (** a [static_assert] whose condition is false *)
| invalid_uuid_string (message : string)
    (** a call of [invalid_uuid_string], which is no constant expression
        and has no definition to link against *)
| out_of_bounds
    (** an array read past its end inside a constant expression *).

Inductive result (A : Type) : Type :=
| Ok (a : A)
| Err (e : build_error).
Arguments Ok {A} a.
Arguments Err {A} e.

#[global] Instance result_mret : MRet result := @Ok.
#[global] Instance result_mbind : MBind result := fun A B f r =>
  match r with
  | Ok a => f a
  | Err e => Err e
  end.

(** The value of a [char]; all comparisons below are against characters
    under 128, so the signedness of [char] makes no difference. *)
Definition chr (c : ascii) : Z := Z.of_N (N_of_ascii c).

(** [s[n]] for an array [s] of [N = length s] characters. *)
Definition index (s : list ascii) (n : nat) : result ascii :=
  match nth_error s n with
  | Some c => Ok c
  | None => Err out_of_bounds
  end.

Definition _digitAt_ (s : list ascii) (n : nat) : result uint8_t :=
  c ← index s n;
  if (chr c >=? chr "0") && (chr c <=? chr "9") then
    Ok (to_uint 8 (chr c - chr "0"))
  else if (chr c >=? chr "a") && (chr c <=? chr "f") then
    Ok (to_uint 8 (chr c - chr "a" + 10))
  else if (chr c >=? chr "A") && (chr c <=? chr "F") then
    Ok (to_uint 8 (chr c - chr "A" + 10))
  else Err (invalid_uuid_string "uuid: bad digits").

Definition _hexByteAt_ (s : list ascii) (n : nat) : result uint8_t :=
  hi ← _digitAt_ s n;
  lo ← _digitAt_ s (n + 1);
  Ok (to_uint 8 (Z.shiftl hi 4 + lo)).

Definition _assertIsDash_ (c : ascii) : result bool :=
  if chr c =? chr "-" then Ok true
  else Err (invalid_uuid_string "Wrong format").

(** [media_uuid_t]: the sixteen elements of its array [b]. *)
Definition media_uuid_t : Type := list uint8_t.

Definition constUUID (s : list ascii) : result media_uuid_t :=
  if negb (length s =? 37)%nat then Err (static_assert "uuid: wrong length")
  else
    _ ← index s 8 ≫= _assertIsDash_;
    _ ← index s 13 ≫= _assertIsDash_;
    _ ← index s 18 ≫= _assertIsDash_;
    _ ← index s 23 ≫= _assertIsDash_;
    b0 ← _hexByteAt_ s 0;
    b1 ← _hexByteAt_ s 2;
    b2 ← _hexByteAt_ s 4;
    b3 ← _hexByteAt_ s 6;
    b4 ← _hexByteAt_ s 9;
    b5 ← _hexByteAt_ s 11;
    b6 ← _hexByteAt_ s 14;
    b7 ← _hexByteAt_ s 16;
    b8 ← _hexByteAt_ s 19;
    b9 ← _hexByteAt_ s 21;
    b10 ← _hexByteAt_ s 24;
    b11 ← _hexByteAt_ s 26;
    b12 ← _hexByteAt_ s 28;
    b13 ← _hexByteAt_ s 30;
    b14 ← _hexByteAt_ s 32;
    b15 ← _hexByteAt_ s 34;
    Ok [b0; b1; b2; b3; b4; b5; b6; b7; b8; b9; b10; b11; b12; b13; b14; b15].

(** The array a string literal denotes: its characters and the
    terminating null character. *)
Definition literal (str : string) : list ascii :=
  list_ascii_of_string str ++ [zero].

(** The rules for a literal in words, to compare [constUUID] with: a hex
    digit is one of '0'-'9', 'a'-'f', 'A'-'F'; the separators sit at
    indices 8, 13, 18 and 23; every other index below 36 holds a digit. *)
Definition is_hex_digit (c : ascii) : bool :=
  existsb (Ascii.eqb c) (list_ascii_of_string "0123456789abcdefABCDEF").

Definition dash_positions : list nat := [8; 13; 18; 23]%nat.

Definition digit_positions : list nat :=
  filter (fun i => negb (existsb (Nat.eqb i) dash_positions)) (seq 0 36).

(** Where a byte of the result starts: each pair of digits, group by
    group. *)
Definition byte_positions : list nat :=
  [0; 2; 4; 6; 9; 11; 14; 16; 19; 21; 24; 26; 28; 30; 32; 34]%nat.

(** The value of a hex digit: its place among 0-9a-f or 0-9A-F. *)
Fixpoint place (c : ascii) (l : list ascii) : option Z :=
  match l with
  | [] => None
  | d :: l' => if Ascii.eqb c d then Some 0 else Z.succ <$> place c l'
  end.

Definition hex_value (c : ascii) : Z :=
  match place c (list_ascii_of_string "0123456789abcdef") with
  | Some v => v
  | None => default 0 (place c (list_ascii_of_string "0123456789ABCDEF"))
  end.

(** The byte written with the digits at [n] and [n + 1], the first one
    in the high nibble. *)
Definition byte_at (s : list ascii) (n : nat) : uint8_t :=
  16 * hex_value (nth n s zero) + hex_value (nth (n + 1) s zero).

Definition valid (s : list ascii) : Prop :=
  length s = 37%nat /\
  (forall i, In i dash_positions -> nth_error s i = Some "-"%char) /\
  (forall i, In i digit_positions ->
     exists c, nth_error s i = Some c /\ is_hex_digit c = true).

End Uuid.

(** ** Notions used in the statements below *)

(** Width in bits of the type of [*x]: [getUInt24] stores to a
    [uint32_t]. *)
Definition fixed_out_bits (r : Reader.fixed) : Z :=
  match r with
  | Reader.UInt16 => 16
  | Reader.UInt24 => 32
  | Reader.UInt32 => 32
  | Reader.UInt64 => 64
  end.

Definition var_out_bits (r : Reader.var) : Z := 8 * Reader.full_width r.


(** In heap [h] no capability slot of [c], called on the struct's [data],
    has a defined result, whatever the arguments. *)
Definition capabilities_undefined {MetaDataBase : Type}
    (c : Adapter.CMediaExtractor MetaDataBase)
    (h : gmap ptr (Extractor.object MetaDataBase)) : Prop :=
  (exists g, Adapter.countTracks c = Some g /\
     g (Adapter.data c) h = None) /\
  (exists g, Adapter.getTrack c = Some g /\ forall index,
     g (Adapter.data c) index h = None) /\
  (exists g, Adapter.getTrackMetaData c = Some g /\ forall meta index flags,
     g (Adapter.data c) meta index flags h = None) /\
  (exists g, Adapter.getMetaData c = Some g /\ forall meta,
     g (Adapter.data c) meta h = None) /\
  (exists g, Adapter.flags c = Some g /\
     g (Adapter.data c) h = None) /\
  (exists g, Adapter.setMediaCas c = Some g /\ forall casToken size,
     g (Adapter.data c) casToken size h = None) /\
  (exists g, Adapter.name c = Some g /\
     g (Adapter.data c) h = None).

(** Two characters that are the same, or hex digits of the same value
    (a letter in its two cases). *)
Definition same_digit (c d : ascii) : Prop :=
  c = d \/
  (Uuid.is_hex_digit c = true /\ Uuid.is_hex_digit d = true /\
   Uuid.hex_value c = Uuid.hex_value d).

(** * Properties *)

(** ** Bytes and byte order *)

Lemma u8_range (b : byte) : 0 <= u8 b < 256.
Proof.
  unfold u8. pose proof (Byte.to_N_bounded b). lia.
Qed.

Lemma at_range (buf : list byte) (i : nat) : 0 <= at_ buf i < 256.
Proof. apply u8_range. Qed.

(** Or-ing a value below [2^n] into a value shifted left by [n] adds it. *)
Lemma lor_shiftl_add (a b n : Z) :
  0 <= n -> 0 <= b < 2 ^ n -> Z.lor (Z.shiftl a n) b = a * 2 ^ n + b.
Proof.
  intros Hn Hb. rewrite Z.shiftl_mul_pow2 by lia.
  symmetry. apply Z.add_nocarry_lor.
  apply Z.bits_inj'. intros i Hi.
  rewrite Z.land_spec, Z.bits_0.
  destruct (Z.lt_ge_cases i n) as [Hlt | Hge].
  - rewrite Z.mul_pow2_bits_low by lia. reflexivity.
  - rewrite <- (Z.mod_small b (2 ^ n)) by lia.
    rewrite Z.mod_pow2_bits_high by lia. apply andb_false_r.
Qed.

(** Masking with a shifted mask is masking the shifted value. *)
Lemma land_shiftl_mask (v m k : Z) :
  0 <= k -> Z.land v (Z.shiftl m k) = Z.shiftl (Z.land (Z.shiftr v k) m) k.
Proof.
  intros Hk. apply Z.bits_inj'. intros i Hi.
  rewrite Z.land_spec.
  destruct (Z.lt_ge_cases i k) as [Hlt | Hge].
  - rewrite !Z.shiftl_spec_low by lia. apply andb_false_r.
  - rewrite !Z.shiftl_spec by lia.
    rewrite Z.land_spec, Z.shiftr_spec by lia.
    replace (i - k + k) with i by lia. reflexivity.
Qed.

(** The byte of [v] at bit [k]. *)
Lemma byte_of_shiftr (v k : Z) :
  0 <= k -> Z.land (Z.shiftr v k) 255 = (v / 2 ^ k) mod 256.
Proof.
  intros Hk. rewrite Z.shiftr_div_pow2 by lia.
  change 255 with (Z.ones 8). rewrite Z.land_ones by lia. reflexivity.
Qed.

Lemma land_255 (v : Z) : Z.land v 255 = v mod 256.
Proof. change 255 with (Z.ones 8). rewrite Z.land_ones by lia. reflexivity. Qed.

Lemma bswap32_bytes (a b c d : Z) :
  0 <= a < 256 -> 0 <= b < 256 -> 0 <= c < 256 -> 0 <= d < 256 ->
  bswap32 (a + 256 * (b + 256 * (c + 256 * d)))
  = ((a * 256 + b) * 256 + c) * 256 + d.
Proof.
  intros Ha Hb Hc Hd. unfold bswap32.
  set (v := a + 256 * (b + 256 * (c + 256 * d))).
  rewrite land_255.
  change 0xff000000 with (Z.shiftl 255 24).
  change 0x00ff0000 with (Z.shiftl 255 16).
  change 0x0000ff00 with (Z.shiftl 255 8).
  rewrite !land_shiftl_mask by lia.
  rewrite !byte_of_shiftr by lia.
  assert (E0 : v mod 256 = a)
    by (subst v; Z.div_mod_to_equations; lia).
  assert (E1 : (v / 2 ^ 8) mod 256 = b)
    by (change (2 ^ 8) with 256; subst v; Z.div_mod_to_equations; lia).
  assert (E2 : (v / 2 ^ 16) mod 256 = c)
    by (change (2 ^ 16) with 65536; subst v; Z.div_mod_to_equations; lia).
  assert (E3 : (v / 2 ^ 24) mod 256 = d)
    by (change (2 ^ 24) with 16777216; subst v; Z.div_mod_to_equations; lia).
  rewrite E0, E1, E2, E3. clear E0 E1 E2 E3 v.
  rewrite Z.shiftr_shiftl_l by lia. change (24 - 24) with 0. rewrite Z.shiftl_0_r.
  rewrite Z.shiftr_shiftl_l by lia. change (16 - 8) with 8.
  rewrite Z.shiftl_shiftl by lia. change (8 + 8) with 16.
  rewrite (Z.lor_comm d), (lor_shiftl_add c d 8) by (change (2 ^ 8) with 256; lia).
  rewrite (Z.lor_comm (Z.shiftl b 16)).
  rewrite (Z.shiftl_mul_pow2 b 16) by lia.
  rewrite (lor_shiftl_add a (b * 2 ^ 16) 24)
    by (change (2 ^ 16) with 65536; change (2 ^ 24) with 16777216; lia).
  replace (a * 2 ^ 24 + b * 2 ^ 16) with (Z.shiftl (a * 256 + b) 16)
    by (rewrite Z.shiftl_mul_pow2 by lia;
        change (2 ^ 16) with 65536; change (2 ^ 24) with 16777216; lia).
  rewrite Z.lor_comm, lor_shiftl_add;
    change (2 ^ 16) with 65536; change (2 ^ 8) with 256; lia.
Qed.

Lemma bytes_at_all (buf : list byte) (n : nat) :
  length buf = n -> bytes_at buf n = buf.
Proof.
  intros <-. unfold bytes_at.
  apply nth_ext with (d := x00) (d' := x00).
  - rewrite length_map, length_seq. reflexivity.
  - intros i Hi. rewrite length_map, length_seq in Hi.
    rewrite (nth_indep _ x00 (nth 0 buf x00))
      by (rewrite length_map, length_seq; exact Hi).
    rewrite (map_nth (fun i => nth i buf x00)), seq_nth by exact Hi.
    reflexivity.
Qed.

(** ** The values the fixed-width readers assemble *)

Lemma getUInt16_value (buf : list byte) :
  to_uint 16 (Z.lor (Z.shiftl (at_ buf 0) 8) (at_ buf 1))
  = big_endian (bytes_at buf 2).
Proof.
  pose proof (at_range buf 0). pose proof (at_range buf 1).
  rewrite lor_shiftl_add by (change (2 ^ 8) with 256; lia).
  unfold to_uint, big_endian, bytes_at. simpl. fold (at_ buf 0) (at_ buf 1).
  change (2 ^ 8) with 256. change (2 ^ 16) with 65536.
  rewrite Z.mod_small; lia.
Qed.

Lemma getUInt24_value (buf : list byte) :
  to_uint 32 (Z.lor (Z.lor (Z.shiftl (at_ buf 0) 16) (Z.shiftl (at_ buf 1) 8))
                    (at_ buf 2))
  = big_endian (bytes_at buf 3).
Proof.
  pose proof (at_range buf 0). pose proof (at_range buf 1).
  pose proof (at_range buf 2).
  rewrite (Z.shiftl_mul_pow2 (at_ buf 1) 8) by lia.
  rewrite (lor_shiftl_add (at_ buf 0))
    by (change (2 ^ 8) with 256; change (2 ^ 16) with 65536; lia).
  replace (at_ buf 0 * 2 ^ 16 + at_ buf 1 * 2 ^ 8)
    with (Z.shiftl (at_ buf 0 * 256 + at_ buf 1) 8)
    by (rewrite Z.shiftl_mul_pow2 by lia;
        change (2 ^ 8) with 256; change (2 ^ 16) with 65536; lia).
  rewrite lor_shiftl_add by (change (2 ^ 8) with 256; lia).
  unfold to_uint, big_endian, bytes_at. simpl.
  fold (at_ buf 0) (at_ buf 1) (at_ buf 2).
  change (2 ^ 8) with 256. change (2 ^ 32) with 4294967296.
  rewrite Z.mod_small; lia.
Qed.

Lemma getUInt32_value (host : byte_order) (buf : list byte) :
  ntohl host (load host 4 buf) = big_endian (bytes_at buf 4).
Proof.
  destruct host; [| reflexivity].
  unfold ntohl, load, little_endian, big_endian, bytes_at. simpl.
  fold (at_ buf 0) (at_ buf 1) (at_ buf 2) (at_ buf 3).
  pose proof (at_range buf 0). pose proof (at_range buf 1).
  pose proof (at_range buf 2). pose proof (at_range buf 3).
  rewrite Z.mul_0_r, Z.add_0_r.
  rewrite bswap32_bytes by lia. lia.
Qed.

(** On a little-endian machine [getUInt64] assembles the big-endian value
    as well. *)
Lemma getUInt64_value (buf : list byte) :
  let tmp := load LittleEndian 8 buf in
  Z.lor (to_uint 64 (Z.shiftl (ntohl LittleEndian (to_uint 32 (Z.land tmp 0xffffffff))) 32))
        (ntohl LittleEndian (to_uint 32 (Z.shiftr tmp 32)))
  = big_endian (bytes_at buf 8).
Proof.
  unfold load, little_endian, big_endian, bytes_at, ntohl, to_uint. simpl.
  fold (at_ buf 0) (at_ buf 1) (at_ buf 2) (at_ buf 3).
  fold (at_ buf 4) (at_ buf 5) (at_ buf 6) (at_ buf 7).
  pose proof (at_range buf 0). pose proof (at_range buf 1).
  pose proof (at_range buf 2). pose proof (at_range buf 3).
  pose proof (at_range buf 4). pose proof (at_range buf 5).
  pose proof (at_range buf 6). pose proof (at_range buf 7).
  generalize dependent (at_ buf 0). generalize dependent (at_ buf 1).
  generalize dependent (at_ buf 2). generalize dependent (at_ buf 3).
  generalize dependent (at_ buf 4). generalize dependent (at_ buf 5).
  generalize dependent (at_ buf 6). generalize dependent (at_ buf 7).
  intros a7 H7 a6 H6 a5 H5 a4 H4 a3 H3 a2 H2 a1 H1 a0 H0.
  set (tmp := a0 + 256 * _).
  change 0xffffffff with (Z.ones 32).
  rewrite Z.land_ones, Z.shiftr_div_pow2 by lia.
  rewrite Zmod_mod.
  change (2 ^ 32) with 4294967296. change (2 ^ 64) with 18446744073709551616.
  assert (Elo : tmp mod 4294967296 = a0 + 256 * (a1 + 256 * (a2 + 256 * a3)))
    by (subst tmp; Z.div_mod_to_equations; lia).
  assert (Ehi : (tmp / 4294967296) mod 4294967296
                = a4 + 256 * (a5 + 256 * (a6 + 256 * a7)))
    by (subst tmp; Z.div_mod_to_equations; lia).
  rewrite Elo, Ehi, !bswap32_bytes by lia.
  rewrite Z.shiftl_mul_pow2 by lia. change (2 ^ 32) with 4294967296.
  rewrite Z.mod_small by lia.
  rewrite <- (Z.shiftl_mul_pow2 _ 32) by lia.
  rewrite lor_shiftl_add by (change (2 ^ 32) with 4294967296; lia).
  change (2 ^ 32) with 4294967296. lia.
Qed.

(** ** Runs of the fixed-width readers *)

Import DataSource.

(** A fixed-width reader makes one call of [readAt] for its width; it
    succeeds exactly when the call returns that width, with the big-endian
    value of the bytes in the buffer, and stores zero otherwise.  For
    [getUInt64] the machine has to be little-endian. *)
Lemma exec_get {H : Type} (host : byte_order) (r : Reader.fixed)
    (src : CDataSource H) (h : H) (offset : off64_t) (x : Z) :
  (r = Reader.UInt64 -> host = LittleEndian) ->
  exec src (Reader.get host r offset x) h =
    let '(n, buf, h1) := cds_readAt src h offset (Reader.nbytes r) in
    (if n =? Reader.nbytes r
     then (true, big_endian (bytes_at buf (Z.to_nat (Reader.nbytes r))))
     else (false, 0),
     h1, [(offset, Reader.nbytes r)]).
Proof.
  intros Hhost.
  destruct r;
    unfold Reader.get, Reader.nbytes, getUInt16, getUInt24, getUInt32,
      getUInt64, readAt, mbind, io_mbind, mret, io_mret;
    cbn [io_bind exec];
    destruct (cds_readAt src h offset _) as [[n buf] h1];
    (destruct (n =? _); cbn [negb exec]; [| reflexivity]).
  - rewrite getUInt16_value. reflexivity.
  - rewrite getUInt24_value. reflexivity.
  - rewrite getUInt32_value. reflexivity.
  - rewrite (Hhost eq_refl), getUInt64_value. reflexivity.
Qed.

Lemma exec_bind {H A B : Type} (src : CDataSource H) (p : io A)
    (f : A -> io B) (h : H) :
  exec src (io_bind f p) h =
    let '(a, h1, c1) := exec src p h in
    let '(b, h2, c2) := exec src (f a) h1 in
    (b, h2, c1 ++ c2).
Proof.
  revert h. induction p as [a | offset size k IH]; intros h; cbn [io_bind exec].
  - destruct (exec src (f a) h) as [[b h2] c2]. reflexivity.
  - destruct (cds_readAt src h offset size) as [[n buf] h1].
    rewrite IH.
    destruct (exec src (k n buf) h1) as [[a h2] c1].
    destruct (exec src (f a) h2) as [[b h3] c2]. reflexivity.
Qed.

(** The value [*x] holds before the call plays no part in a fixed-width
    reader. *)
Lemma get_ignores_out (host : byte_order) (r : Reader.fixed)
    (offset : off64_t) (x y : Z) :
  Reader.get host r offset x = Reader.get host r offset y.
Proof. destruct r; reflexivity. Qed.

(** A fixed-width reader that returns false has stored zero, whatever the
    byte order of the machine. *)
Lemma get_failure_zero {H : Type} (host : byte_order) (r : Reader.fixed)
    (src : CDataSource H) (h : H) (offset : off64_t) (x : Z) :
  returned (exec src (Reader.get host r offset x) h) = false ->
  out (exec src (Reader.get host r offset x) h) = 0.
Proof.
  destruct r;
    unfold Reader.get, getUInt16, getUInt24, getUInt32, getUInt64, readAt,
      mbind, io_mbind, mret, io_mret;
    cbn [io_bind exec];
    destruct (cds_readAt src h offset _) as [[n buf] h1];
    (destruct (n =? _); cbn [negb exec returned out fst snd];
     [discriminate | reflexivity]).
Qed.

(** ** Runs of the variable-width readers *)

(** At the full width a variable-width reader is the fixed-width one. *)
Lemma get_var_full_width (host : byte_order) (r : Reader.var)
    (offset : off64_t) (x : Z) :
  Reader.get_var host r offset x (Reader.full_width r) =
    match r with
    | Reader.UInt16Var => getUInt16 offset x
    | Reader.UInt32Var => getUInt32 host offset x
    | Reader.UInt64Var => getUInt64 host offset x
    end.
Proof. destruct r; reflexivity. Qed.

Lemma get_var_full_width_failure_zero {H : Type} (host : byte_order)
    (r : Reader.var) (src : CDataSource H) (h : H) (offset : off64_t) (x : Z) :
  returned (exec src (Reader.get_var host r offset x (Reader.full_width r)) h) = false ->
  out (exec src (Reader.get_var host r offset x (Reader.full_width r)) h) = 0.
Proof.
  rewrite get_var_full_width. destruct r.
  - exact (get_failure_zero host Reader.UInt16 src h offset x).
  - exact (get_failure_zero host Reader.UInt32 src h offset x).
  - exact (get_failure_zero host Reader.UInt64 src h offset x).
Qed.

(** At any other size a variable-width reader that returns false has not
    stored to [*x]: the caller finds the value that was there before. *)
Lemma get_var_failure_keeps_out {H : Type} (host : byte_order)
    (r : Reader.var) (src : CDataSource H) (h : H) (offset : off64_t)
    (x : Z) (size : size_t) :
  size <> Reader.full_width r ->
  returned (exec src (Reader.get_var host r offset x size) h) = false ->
  out (exec src (Reader.get_var host r offset x size) h) = x.
Proof.
  intros Hsize.
  destruct r;
    unfold Reader.get_var, Reader.full_width, getUInt16Var, getUInt32Var,
      getUInt64Var in *;
    repeat match goal with
           | |- context [size =? ?k] =>
               destruct (Z.eqb_spec size k) as [? | ?]
           end;
    try contradiction; try (intros _; reflexivity);
    unfold getUInt16, getUInt32, readAt, mbind, io_mbind, mret, io_mret;
    cbn [io_bind exec];
    destruct (cds_readAt src h offset _) as [[cnt buf] h1];
    (destruct (cnt =? _); cbn [negb io_bind exec returned out fst snd];
     [discriminate | reflexivity]).
Qed.

(** ** The readers: the claims *)

(** C1.  A fixed-width reader [getUIntN] asks the source for N/8 bytes at
    [offset] once.  When [readAt] returns exactly that count, the reader
    returns true and [*x] is the big-endian value of the bytes read; when
    it returns any other count (fewer bytes, or an error), the reader
    returns false and [*x] is zero.  [getUInt16], [getUInt24] and
    [getUInt32] do so on any machine, [getUInt64] on a little-endian one,
    which every Android ABI is. *)
Theorem getUIntN_big_endian_or_zero {H : Type} (host : byte_order)
    (r : Reader.fixed) (src : CDataSource H) (h : H) (offset : off64_t)
    (x : Z) (n : ssize_t) (buf : list byte) (h1 : H) :
  (r = Reader.UInt64 -> host = LittleEndian) ->
  cds_readAt src h offset (Reader.nbytes r) = (n, buf, h1) ->
  let e := exec src (Reader.get host r offset x) h in
  (n = Reader.nbytes r -> Z.of_nat (length buf) = Reader.nbytes r ->
   returned e = true /\ out e = big_endian buf) /\
  (n <> Reader.nbytes r -> returned e = false /\ out e = 0) /\
  calls e = [(offset, Reader.nbytes r)] /\ handle e = h1.
Proof.
  intros Hhost Hread e. subst e. rewrite exec_get by exact Hhost.
  rewrite Hread. split; [| split].
  - intros -> Hlen. rewrite Z.eqb_refl.
    rewrite bytes_at_all by lia. split; reflexivity.
  - intros Hn. apply Z.eqb_neq in Hn. rewrite Hn. split; reflexivity.
  - destruct (n =? Reader.nbytes r); split; reflexivity.
Qed.

Lemma getUIntN_big_endian_or_zero_witness :
  let src := buffer_source [x01; x02; x03; x04; x05; x06; x07; x08; x09] xff in
  let e := exec src (Reader.get LittleEndian Reader.UInt64 1 77) 0%nat in
  (Reader.UInt64 = Reader.UInt64 -> LittleEndian = LittleEndian) /\
  cds_readAt src 0%nat 1 8 = (8, [x02; x03; x04; x05; x06; x07; x08; x09], 1%nat) /\
  returned e = true /\ out e = 0x0203040506070809.
Proof.
  intros src e.
  split; [reflexivity |]. split; [reflexivity |].
  exact (proj1 (getUIntN_big_endian_or_zero LittleEndian Reader.UInt64 src
                  0%nat 1 77 8 [x02; x03; x04; x05; x06; x07; x08; x09] 1%nat
                  (fun _ => eq_refl) eq_refl)
           eq_refl eq_refl).
Defined.

(** On a big-endian machine [getUInt64] would exchange the two halves. *)
Remark getUInt64_big_endian_host :
  out (exec (buffer_source [x01; x02; x03; x04; x05; x06; x07; x08] xff)
            (getUInt64 BigEndian 0 0) 0%nat)
  = 0x0506070801020304.
Proof. vm_compute. reflexivity. Qed.

(** C2.  [getUInt32Var] asked for its half width, 2 bytes, where the
    source has only one: it returns false and [*x] still holds 0xdeadbeef,
    the value from before the call, not zero.  (The fixed-width readers,
    and the variable-width ones at full width, do store zero on failure:
    [get_failure_zero], [get_var_full_width_failure_zero]; at every other
    size the variable-width readers leave [*x] alone:
    [get_var_failure_keeps_out].) *)
Theorem getUInt32Var_short_read_leaves_out :
  let e := exec (buffer_source [x12] xff)
                (getUInt32Var LittleEndian 0 0xdeadbeef 2) 0%nat in
  returned e = false /\ out e = 0xdeadbeef /\ calls e = [(0, 2)].
Proof. vm_compute. repeat split; reflexivity. Qed.

(** The same with a size that is no width at all. *)
Remark getUInt16Var_bad_size_leaves_out :
  let e := exec (buffer_source [x12; x34] xff)
                (getUInt16Var 0 0xbeef 3) 0%nat in
  returned e = false /\ out e = 0xbeef.
Proof. vm_compute. split; reflexivity. Qed.

(** C3.  A variable-width reader given a size that is neither the half
    nor the full width of its output type returns false at once: the
    program is a plain return, so against every source no call of
    [readAt] is made and the source is left as it was. *)
Theorem get_var_other_size_no_read (host : byte_order) (r : Reader.var)
    (offset : off64_t) (x : Z) (size : size_t) :
  size <> Reader.half_width r -> size <> Reader.full_width r ->
  Reader.get_var host r offset x size = Ret (false, x) /\
  forall (H : Type) (src : CDataSource H) (h : H),
    let e := exec src (Reader.get_var host r offset x size) h in
    returned e = false /\ calls e = [] /\ handle e = h.
Proof.
  intros Hhalf Hfull.
  assert (E : Reader.get_var host r offset x size = Ret (false, x)).
  { destruct r;
      unfold Reader.get_var, Reader.half_width, Reader.full_width,
        getUInt16Var, getUInt32Var, getUInt64Var in *;
      repeat match goal with
             | |- context [size =? ?k] =>
                 destruct (Z.eqb_spec size k) as [? | ?]
             end;
      try contradiction; reflexivity. }
  split; [exact E |].
  intros H src h. rewrite E. repeat split.
Qed.

Lemma get_var_other_size_no_read_witness :
  3 <> Reader.half_width Reader.UInt32Var /\
  3 <> Reader.full_width Reader.UInt32Var /\
  getUInt32Var LittleEndian 16 5 3 = Ret (false, 5).
Proof.
  split; [discriminate |]. split; [discriminate |].
  apply (get_var_other_size_no_read LittleEndian Reader.UInt32Var 16 5 3);
    discriminate.
Defined.

(** C4.  [getUInt32Var] with size 2 returns what [getUInt16] returns on
    the same source, and on success stores the same number, which is
    below 2^16: the zero-extension of the 16-bit value.  With size 4 it is
    [getUInt32]. *)
Theorem getUInt32Var_agrees_with_fixed {H : Type} (host : byte_order)
    (src : CDataSource H) (h : H) (offset : off64_t) (x : uint32_t)
    (tmp : uint16_t) :
  let e16 := exec src (getUInt16 offset tmp) h in
  let e2 := exec src (getUInt32Var host offset x 2) h in
  returned e2 = returned e16 /\
  (returned e2 = true -> out e2 = out e16 /\ 0 <= out e16 < 2 ^ 16) /\
  calls e2 = calls e16 /\ handle e2 = handle e16 /\
  exec src (getUInt32Var host offset x 4) h = exec src (getUInt32 host offset x) h.
Proof.
  unfold getUInt32Var, getUInt16, readAt, mbind, io_mbind, mret, io_mret.
  cbn [Z.eqb Pos.eqb io_bind exec].
  destruct (cds_readAt src h offset 2) as [[n buf] h1].
  destruct (n =? 2); cbn [negb io_bind exec returned out calls handle fst snd].
  - repeat split; try discriminate.
    + unfold to_uint. apply Z.mod_pos_bound. reflexivity.
    + unfold to_uint. apply Z.mod_pos_bound. reflexivity.
  - repeat split; discriminate.
Qed.

(** C5.  After [getUInt24], successful or not, no bit of [*x] from bit 24
    upwards is set: on success [*x] is [byte[0]], [byte[1]], [byte[2]] in
    bits 16-23, 8-15 and 0-7, on failure it is zero. *)
Theorem getUInt24_high_bits_clear {H : Type} (src : CDataSource H) (h : H)
    (offset : off64_t) (x : uint32_t) :
  let buf := snd (fst (cds_readAt src h offset 3)) in
  let e := exec src (getUInt24 offset x) h in
  (forall i, 24 <= i -> Z.testbit (out e) i = false) /\
  (returned e = true ->
   out e = at_ buf 0 * 2 ^ 16 + at_ buf 1 * 2 ^ 8 + at_ buf 2) /\
  (returned e = false -> out e = 0).
Proof.
  intros buf e.
  assert (E : e = (if fst (fst (cds_readAt src h offset 3)) =? 3
                   then (true, big_endian (bytes_at buf 3)) else (false, 0),
                   snd (cds_readAt src h offset 3), [(offset, 3)])).
  { subst e buf. rewrite (exec_get LittleEndian Reader.UInt24) by discriminate.
    change (Reader.nbytes Reader.UInt24) with 3.
    destruct (cds_readAt src h offset 3) as [[n b] h1].
    reflexivity. }
  assert (V : big_endian (bytes_at buf 3)
              = at_ buf 0 * 2 ^ 16 + at_ buf 1 * 2 ^ 8 + at_ buf 2).
  { unfold big_endian, bytes_at. simpl. fold (at_ buf 0) (at_ buf 1) (at_ buf 2).
    change (2 ^ 16) with 65536. change (2 ^ 8) with 256. lia. }
  pose proof (at_range buf 0). pose proof (at_range buf 1).
  pose proof (at_range buf 2).
  rewrite E. destruct (_ =? 3); cbn [returned out fst snd].
  - split; [| split; [intros _; exact V | discriminate]].
    intros i Hi. rewrite V.
    rewrite <- (Z.mod_small _ (2 ^ 24))
      by (change (2 ^ 16) with 65536; change (2 ^ 8) with 256;
          change (2 ^ 24) with 16777216; lia).
    apply Z.mod_pow2_bits_high. lia.
  - split; [| split; [discriminate | reflexivity]].
    intros i _. apply Z.bits_0.
Qed.

(** ** wrap *)

Section WrapFacts.

Context {MetaDataBase : Type} (INVALID_OPERATION : status_t).

Import Adapter.

(** An address [malloc] hands out is not null. *)
Lemma fresh_not_null (X Y : gset ptr) : fresh ({[NULL]} ∪ X ∪ Y) <> NULL.
Proof.
  intros E. apply (is_fresh ({[NULL]} ∪ X ∪ Y)). rewrite E. set_solver.
Qed.

(** With a block left, [wrap] returns, and the struct it returns is the
    one whose slots hold the lambdas. *)
Lemma wrap_returns (extractor : ptr) (m : memory MetaDataBase) :
  blocks_left m <> 0%nat ->
  exists wrapper m' c,
    wrap INVALID_OPERATION extractor m = Some (wrapper, m') /\
    wrapper <> NULL /\
    structs m' !! wrapper = Some c /\
    objects m' = objects m /\
    data c = extractor /\
    free c = Some (fun data => delete_extractor data) /\
    countTracks c = Some (fun data =>
      method_call data (fun S c => Extractor.countTracks c)) /\
    getTrack c = Some (fun data index =>
      method_call data (fun S c => Extractor.getTrack c index)) /\
    getTrackMetaData c = Some (fun data meta index flags =>
      method_call data (fun S c => Extractor.getTrackMetaData c meta index flags)) /\
    getMetaData c = Some (fun data meta =>
      method_call data (fun S c => Extractor.getMetaData c meta)) /\
    flags c = Some (fun data =>
      method_call data (fun S c s => (Extractor.flags c s, s))) /\
    setMediaCas c = Some (fun data casToken size =>
      method_call data (fun S c =>
        Extractor.setMediaCas INVALID_OPERATION c casToken size)) /\
    name c = Some (fun data =>
      method_call data (fun S c => Extractor.name c)).
Proof.
  intros Hleft. unfold wrap, malloc.
  destruct (blocks_left m) as [| k]; [contradiction |].
  destruct (decide _) as [E | Hnn]; [exfalso; exact (fresh_not_null _ _ E) |].
  do 3 eexists. split; [reflexivity |]. split; [exact Hnn |].
  cbn [structs objects]. split; [apply lookup_insert_eq |].
  repeat split.
Qed.

(** A method call on a live object is the method of its class run on its
    fields. *)
Lemma method_call_live {R S : Type} (this : ptr)
    (cls : Extractor.MediaExtractorPluginHelper MetaDataBase S) (s : S)
    (m : forall S, Extractor.MediaExtractorPluginHelper MetaDataBase S -> S -> R * S)
    (h : gmap ptr (Extractor.object MetaDataBase)) :
  h !! this = Some (Extractor.Object cls s) ->
  method_call this m h = returning this cls (m S cls s) h.
Proof.
  intros Hlive. unfold method_call, returning. rewrite Hlive.
  cbn [Extractor.class Extractor.state Extractor.fields].
  destruct (m S cls s) as [r s']. reflexivity.
Qed.

(** C6.  Through the struct [wrap] returns for the extractor at
    [extractor], every capability slot called on the struct's [data] with
    any arguments gives what the method of the extractor's class gives on
    the extractor with the same arguments: the same value (status codes
    included) and the same effect on the object. *)
Theorem wrapped_slots_forward {S : Type} (extractor : ptr)
    (m : memory MetaDataBase)
    (cls : Extractor.MediaExtractorPluginHelper MetaDataBase S) (s : S)
    (h : gmap ptr (Extractor.object MetaDataBase)) :
  blocks_left m <> 0%nat ->
  h !! extractor = Some (Extractor.Object cls s) ->
  exists wrapper m' c,
    wrap INVALID_OPERATION extractor m = Some (wrapper, m') /\
    structs m' !! wrapper = Some c /\
    (exists f, countTracks c = Some f /\
       f (data c) h
       = returning extractor cls (Extractor.countTracks cls s) h) /\
    (exists f, getTrack c = Some f /\ forall index,
       f (data c) index h
       = returning extractor cls (Extractor.getTrack cls index s) h) /\
    (exists f, getTrackMetaData c = Some f /\ forall meta index flags,
       f (data c) meta index flags h
       = returning extractor cls
           (Extractor.getTrackMetaData cls meta index flags s) h) /\
    (exists f, getMetaData c = Some f /\ forall meta,
       f (data c) meta h
       = returning extractor cls (Extractor.getMetaData cls meta s) h) /\
    (exists f, flags c = Some f /\
       f (data c) h = returning extractor cls (Extractor.flags cls s, s) h) /\
    (exists f, setMediaCas c = Some f /\ forall casToken size,
       f (data c) casToken size h
       = returning extractor cls
           (Extractor.setMediaCas INVALID_OPERATION cls casToken size s) h) /\
    (exists f, name c = Some f /\
       f (data c) h = returning extractor cls (Extractor.name cls s) h).
Proof.
  intros Hleft Hlive.
  destruct (wrap_returns extractor m Hleft)
    as (wrapper & m' & c & Hwrap & _ & Hc & _ & Hdata & _ & Hct & Hgt & Hgtm
        & Hgm & Hfl & Hsm & Hnm).
  exists wrapper, m', c. split; [exact Hwrap |]. split; [exact Hc |].
  rewrite Hdata.
  repeat split; eexists; (split; [eassumption |]); intros;
    apply (method_call_live extractor cls s); exact Hlive.
Qed.

(** Whatever [wrap] returns was [malloc]ed: a block was left. *)
Lemma wrap_some_block_left (extractor wrapper : ptr)
    (m m' : memory MetaDataBase) :
  wrap INVALID_OPERATION extractor m = Some (wrapper, m') ->
  blocks_left m <> 0%nat.
Proof.
  unfold wrap, malloc. destruct (blocks_left m) as [| k]; [| discriminate].
  destruct (decide (NULL = NULL)) as [_ | Hne]; [discriminate | contradiction].
Qed.

(** C7.  For a non-null [extractor], [wrap] returns whenever [malloc] has
    a block left, and in the struct it returns [data] is [extractor] and
    none of the function pointers free, countTracks, getTrack,
    getTrackMetaData, getMetaData, flags, setMediaCas, name is null. *)
Theorem wrap_every_slot_set (extractor : ptr) (m : memory MetaDataBase) :
  extractor <> NULL ->
  (blocks_left m <> 0%nat ->
   exists wrapper m', wrap INVALID_OPERATION extractor m = Some (wrapper, m')) /\
  (forall wrapper m',
     wrap INVALID_OPERATION extractor m = Some (wrapper, m') ->
     wrapper <> NULL /\
     exists c, structs m' !! wrapper = Some c /\
       data c = extractor /\
       free c <> None /\ countTracks c <> None /\ getTrack c <> None /\
       getTrackMetaData c <> None /\ getMetaData c <> None /\
       flags c <> None /\ setMediaCas c <> None /\ name c <> None).
Proof.
  intros _. split.
  - intros Hleft.
    destruct (wrap_returns extractor m Hleft) as (wrapper & m' & c & Hwrap & _).
    exists wrapper, m'. exact Hwrap.
  - intros wrapper m' Hwrap.
    destruct (wrap_returns extractor m (wrap_some_block_left _ _ _ _ Hwrap))
      as (wrapper0 & m0 & c & Hwrap0 & Hnn & Hc & _ & Hdata & Hfr & Hct & Hgt
          & Hgtm & Hgm & Hfl & Hsm & Hnm).
    rewrite Hwrap in Hwrap0. injection Hwrap0 as <- <-.
    split; [exact Hnn |]. exists c. split; [exact Hc |]. split; [exact Hdata |].
    rewrite Hfr, Hct, Hgt, Hgtm, Hgm, Hfl, Hsm, Hnm.
    repeat split; discriminate.
Qed.

(** C10.  Through the struct [wrap] returns for an extractor whose class
    does not override the method: [flags] returns
    CAN_SEEK_BACKWARD | CAN_SEEK_FORWARD | CAN_SEEK | CAN_PAUSE, which is
    15; [setMediaCas] returns INVALID_OPERATION for every token and size;
    [name] returns the string <unspecified>.  None of them changes the
    object. *)
Theorem wrapped_defaults {S : Type} (extractor : ptr)
    (m : memory MetaDataBase)
    (cls : Extractor.MediaExtractorPluginHelper MetaDataBase S) (s : S)
    (h : gmap ptr (Extractor.object MetaDataBase)) :
  blocks_left m <> 0%nat ->
  h !! extractor = Some (Extractor.Object cls s) ->
  exists wrapper m' c,
    wrap INVALID_OPERATION extractor m = Some (wrapper, m') /\
    structs m' !! wrapper = Some c /\
    (Extractor.override_flags cls = None ->
     exists f, flags c = Some f /\
       f (data c) h
       = Some (Z.lor (Z.lor (Z.lor Extractor.CAN_SEEK_BACKWARD
                                   Extractor.CAN_SEEK_FORWARD)
                            Extractor.CAN_SEEK)
                     Extractor.CAN_PAUSE, h) /\
       f (data c) h = Some (15, h)) /\
    (Extractor.override_setMediaCas cls = None ->
     exists f, setMediaCas c = Some f /\ forall casToken size,
       f (data c) casToken size h = Some (INVALID_OPERATION, h)) /\
    (Extractor.override_name cls = None ->
     exists f, name c = Some f /\
       f (data c) h = Some ("<unspecified>"%string, h)).
Proof.
  intros Hleft Hlive.
  destruct (wrap_returns extractor m Hleft)
    as (wrapper & m' & c & Hwrap & _ & Hc & _ & Hdata & _ & _ & _ & _ & _
        & Hfl & Hsm & Hnm).
  exists wrapper, m', c. split; [exact Hwrap |]. split; [exact Hc |].
  assert (Hid : <[extractor := Extractor.Object cls s]> h = h)
    by (apply insert_id; exact Hlive).
  rewrite Hdata.
  split; [| split]; intros Hno; eexists; (split; [eassumption |]); intros;
    cbv beta; rewrite (method_call_live extractor cls s) by exact Hlive;
    unfold returning, Extractor.flags, Extractor.setMediaCas, Extractor.name;
    rewrite Hno; cbn [fst snd]; rewrite Hid; try split; reflexivity.
Qed.

End WrapFacts.

(** The three statements above at the sample extractor. *)

Import Adapter.

Lemma wrapped_slots_forward_witness :
  blocks_left sample_memory <> 0%nat /\
  objects sample_memory !! 64 = Some (Extractor.Object sample_class 2%nat) /\
  exists wrapper m' c f,
    wrap (-38) 64 sample_memory = Some (wrapper, m') /\
    structs m' !! wrapper = Some c /\
    getTrackMetaData c = Some f /\
    f (data c) [] 5 1 (objects sample_memory)
    = returning 64 sample_class (-1, [], 2%nat) (objects sample_memory).
Proof.
  split; [discriminate |]. split; [reflexivity |].
  destruct (wrapped_slots_forward (-38) 64 sample_memory sample_class 2%nat
              (objects sample_memory))
    as (wrapper & m' & c & Hwrap & Hc & _ & _ & (f & Hf & Hcall) & _);
    [discriminate | reflexivity |].
  exists wrapper, m', c, f.
  split; [exact Hwrap |]. split; [exact Hc |]. split; [exact Hf |].
  exact (Hcall [] 5 1).
Defined.

Lemma wrap_every_slot_set_witness :
  64 <> NULL /\
  exists wrapper m' c,
    wrap (-38) 64 sample_memory = Some (wrapper, m') /\
    structs m' !! wrapper = Some c /\ data c = 64 /\ free c <> None.
Proof.
  split; [discriminate |].
  destruct (wrap_every_slot_set (-38) 64 sample_memory) as [Hret Hslots];
    [discriminate |].
  destruct Hret as (wrapper & m' & Hwrap); [discriminate |].
  destruct (Hslots wrapper m' Hwrap) as (_ & c & Hc & Hdata & Hfree & _).
  exists wrapper, m', c. repeat split; assumption.
Defined.

Lemma wrapped_defaults_witness :
  blocks_left sample_memory <> 0%nat /\
  objects sample_memory !! 64 = Some (Extractor.Object sample_class 2%nat) /\
  Extractor.override_flags sample_class = None /\
  exists wrapper m' c f,
    wrap (-38) 64 sample_memory = Some (wrapper, m') /\
    structs m' !! wrapper = Some c /\
    flags c = Some f /\
    f (data c) (objects sample_memory) = Some (15, objects sample_memory).
Proof.
  split; [discriminate |]. split; [reflexivity |]. split; [reflexivity |].
  destruct (wrapped_defaults (-38) 64 sample_memory sample_class 2%nat
              (objects sample_memory))
    as (wrapper & m' & c & Hwrap & Hc & Hfl & _);
    [discriminate | reflexivity |].
  destruct (Hfl eq_refl) as (f & Hf & _ & Hcall).
  exists wrapper, m', c, f. repeat split; assumption.
Defined.

(** ** constUUID *)

Import Uuid.

(** The three range tests of [_digitAt_] accept the hex digits and
    nothing else, and give each its value. *)
Lemma digitAt_char (s : list ascii) (n : nat) (c : ascii) :
  nth_error s n = Some c ->
  _digitAt_ s n =
    if is_hex_digit c then Ok (hex_value c)
    else Err (invalid_uuid_string "uuid: bad digits").
Proof.
  intros Hc. unfold _digitAt_, index. rewrite Hc.
  destruct c as [[] [] [] [] [] [] [] []]; reflexivity.
Qed.

Lemma hex_value_range (c : ascii) :
  is_hex_digit c = true -> 0 <= hex_value c < 16.
Proof.
  destruct c as [[] [] [] [] [] [] [] []]; intros Hc;
    try discriminate Hc; vm_compute; split; congruence.
Qed.

Lemma assertIsDash_char (c : ascii) :
  _assertIsDash_ c =
    if Ascii.eqb c "-" then Ok true
    else Err (invalid_uuid_string "Wrong format").
Proof. destruct c as [[] [] [] [] [] [] [] []]; reflexivity. Qed.

Lemma nth_error_nth_zero (s : list ascii) (n : nat) (c : ascii) :
  nth_error s n = Some c -> nth n s zero = c.
Proof. intros Hc. apply nth_error_nth. exact Hc. Qed.

(** Two hex digits in a row make a byte, the first digit its high
    nibble. *)
Lemma hexByteAt_digits (s : list ascii) (n : nat) (c1 c2 : ascii) :
  nth_error s n = Some c1 -> is_hex_digit c1 = true ->
  nth_error s (n + 1) = Some c2 -> is_hex_digit c2 = true ->
  _hexByteAt_ s n = Ok (byte_at s n).
Proof.
  intros H1 D1 H2 D2. unfold _hexByteAt_, byte_at.
  rewrite (digitAt_char s n c1 H1), (digitAt_char s (n + 1) c2 H2), D1, D2.
  rewrite (nth_error_nth_zero s n c1 H1), (nth_error_nth_zero s (n + 1) c2 H2).
  cbn [mbind result_mbind]. f_equal.
  pose proof (hex_value_range c1 D1). pose proof (hex_value_range c2 D2).
  unfold to_uint. rewrite Z.shiftl_mul_pow2 by lia.
  change (2 ^ 4) with 16. change (2 ^ 8) with 256.
  rewrite Z.mod_small; lia.
Qed.

(** When [_hexByteAt_] gives a byte, both characters were hex digits. *)
Lemma hexByteAt_ok (s : list ascii) (n : nat) (b : uint8_t) :
  _hexByteAt_ s n = Ok b ->
  (exists c, nth_error s n = Some c /\ is_hex_digit c = true) /\
  (exists c, nth_error s (n + 1) = Some c /\ is_hex_digit c = true).
Proof.
  unfold _hexByteAt_. intros Hb.
  destruct (nth_error s n) as [c1 |] eqn:H1;
    [| unfold _digitAt_, index in Hb; rewrite H1 in Hb; discriminate Hb].
  rewrite (digitAt_char s n c1 H1) in Hb.
  destruct (is_hex_digit c1) eqn:D1; [| discriminate Hb].
  cbn [mbind result_mbind] in Hb.
  destruct (nth_error s (n + 1)) as [c2 |] eqn:H2;
    [| unfold _digitAt_, index in Hb; rewrite H2 in Hb; discriminate Hb].
  rewrite (digitAt_char s (n + 1) c2 H2) in Hb.
  destruct (is_hex_digit c2) eqn:D2; [| discriminate Hb].
  split; eexists; split; reflexivity || assumption.
Qed.

(** The separator test at an index of the array. *)
Lemma dash_step (s : list ascii) (n : nat) :
  (index s n ≫= _assertIsDash_) =
    match nth_error s n with
    | Some c => if Ascii.eqb c "-" then Ok true
                else Err (invalid_uuid_string "Wrong format")
    | None => Err out_of_bounds
    end.
Proof.
  unfold index. destruct (nth_error s n) as [c |]; [| reflexivity].
  cbn [mbind result_mbind]. apply assertIsDash_char.
Qed.

Lemma in_positions (i : nat) (l : list nat) :
  existsb (Nat.eqb i) l = true -> In i l.
Proof.
  intros Hi. apply existsb_exists in Hi. destruct Hi as (j & Hj & E).
  apply Nat.eqb_eq in E. subst j. exact Hj.
Qed.

(** On a valid array [constUUID] gives the sixteen bytes written by the
    sixteen pairs of digits, in order. *)
Lemma constUUID_valid (s : list ascii) :
  valid s -> constUUID s = Ok (map (byte_at s) byte_positions).
Proof.
  intros (Hlen & Hdash & Hdigit).
  assert (Hbyte : forall n, existsb (Nat.eqb n) byte_positions = true ->
                            _hexByteAt_ s n = Ok (byte_at s n)).
  { intros n Hn. apply in_positions in Hn.
    assert (Hn' : In n digit_positions /\ In (n + 1)%nat digit_positions).
    { repeat (destruct Hn as [<- | Hn];
              [split; apply in_positions; reflexivity |]).
      destruct Hn. }
    destruct (Hdigit n (proj1 Hn')) as (c1 & H1 & D1).
    destruct (Hdigit (n + 1)%nat (proj2 Hn')) as (c2 & H2 & D2).
    exact (hexByteAt_digits s n c1 c2 H1 D1 H2 D2). }
  unfold constUUID. rewrite Hlen. cbn [Nat.eqb negb].
  rewrite !dash_step.
  rewrite (Hdash 8%nat), (Hdash 13%nat), (Hdash 18%nat), (Hdash 23%nat)
    by (apply in_positions; reflexivity).
  cbn [Ascii.eqb Bool.eqb mbind result_mbind].
  rewrite !Hbyte by reflexivity.
  reflexivity.
Qed.

(** What [constUUID] accepts is valid. *)
Lemma constUUID_ok_valid (s : list ascii) (u : media_uuid_t) :
  constUUID s = Ok u -> valid s.
Proof.
  unfold constUUID. destruct (Nat.eqb_spec (length s) 37) as [Hlen | Hlen];
    cbn [negb]; [| discriminate].
  rewrite !dash_step. intros Hu.
  repeat match type of Hu with
         | context [nth_error s ?n] =>
             let c := fresh "c" in let Hc := fresh "Hc" in
             destruct (nth_error s n) as [c |] eqn:Hc;
             [| discriminate Hu];
             let E := fresh "E" in
             destruct (Ascii.eqb_spec c "-") as [E | E];
             [subst c | discriminate Hu];
             cbn [mbind result_mbind] in Hu
         end.
  repeat match type of Hu with
         | context [_hexByteAt_ s ?n] =>
             let b := fresh "b" in let Hb := fresh "Hb" in
             destruct (_hexByteAt_ s n) as [b |] eqn:Hb;
             [apply hexByteAt_ok in Hb | discriminate Hu];
             cbn [mbind result_mbind] in Hu
         end.
  split; [exact Hlen |]. split.
  - intros i Hi. repeat (destruct Hi as [<- | Hi]; [assumption |]). destruct Hi.
  - intros i Hi. vm_compute in Hi.
    repeat (destruct Hi as [<- | Hi];
            [match goal with
             | H : _ /\ _ |- _ => (apply (proj1 H) || apply (proj2 H))
             end |]).
    destruct Hi.
Qed.

(** C8.  [constUUID] on the literal 7d613858-5837-4a38-84c5-332d1cddee27
    gives the bytes 7d 61 38 58 58 37 4a 38 84 c5 33 2d 1c dd ee 27: the
    pairs of digits from left to right, the first digit of a pair in the
    high nibble, the dashes passed over. *)
Theorem constUUID_documented_example :
  let s := literal "7d613858-5837-4a38-84c5-332d1cddee27" in
  constUUID s
  = Ok [0x7d; 0x61; 0x38; 0x58; 0x58; 0x37; 0x4a; 0x38;
        0x84; 0xc5; 0x33; 0x2d; 0x1c; 0xdd; 0xee; 0x27] /\
  map (byte_at s) byte_positions
  = [0x7d; 0x61; 0x38; 0x58; 0x58; 0x37; 0x4a; 0x38;
     0x84; 0xc5; 0x33; 0x2d; 0x1c; 0xdd; 0xee; 0x27].
Proof. split; vm_compute; reflexivity. Qed.

(** Upper-case digits give the same bytes. *)
Remark constUUID_upper_case :
  constUUID (literal "7D613858-5837-4A38-84C5-332D1CDDEE27")
  = constUUID (literal "7d613858-5837-4a38-84c5-332d1cddee27").
Proof. vm_compute. reflexivity. Qed.

(** The three ways a literal stops the build. *)
Remark constUUID_bad_digit :
  constUUID (literal "7g613858-5837-4a38-84c5-332d1cddee27")
  = Err (invalid_uuid_string "uuid: bad digits").
Proof. vm_compute. reflexivity. Qed.

Remark constUUID_misplaced_dash :
  constUUID (literal "7d6138585-837-4a38-84c5-332d1cddee27")
  = Err (invalid_uuid_string "Wrong format").
Proof. vm_compute. reflexivity. Qed.

Remark constUUID_bad_length :
  constUUID (literal "7d613858-5837-4a38-84c5-332d1cddee2")
  = Err (static_assert "uuid: wrong length").
Proof. vm_compute. reflexivity. Qed.

(** C9.  [constUUID] accepts an array exactly when it is valid: 37
    characters, a dash at each of the indices 8, 13, 18, 23, a hex digit
    (0-9, a-f, A-F) at every other index below 36.  An array that is not
    valid stops the build, with one of the diagnostics of the source; an
    array that is accepted gives the bytes its digits write, nothing
    else. *)
Theorem constUUID_accepts_iff_valid (s : list ascii) :
  ((exists u, constUUID s = Ok u) <-> valid s) /\
  (~ valid s ->
   constUUID s = Err (static_assert "uuid: wrong length") \/
   constUUID s = Err (invalid_uuid_string "Wrong format") \/
   constUUID s = Err (invalid_uuid_string "uuid: bad digits")) /\
  (forall u, constUUID s = Ok u -> u = map (byte_at s) byte_positions).
Proof.
  split; [| split].
  - split.
    + intros (u & Hu). exact (constUUID_ok_valid s u Hu).
    + intros Hv. eexists. exact (constUUID_valid s Hv).
  - intros Hnv. destruct (constUUID s) as [u | e] eqn:Hu.
    + exfalso. exact (Hnv (constUUID_ok_valid s u Hu)).
    + revert Hu. clear Hnv. unfold constUUID.
      destruct (Nat.eqb_spec (length s) 37) as [Hlen | Hlen]; cbn [negb];
        [| intros [= <-]; left; reflexivity].
      assert (Hin : forall n, (n < 37)%nat -> exists c, nth_error s n = Some c).
      { intros n Hn. destruct (nth_error s n) as [c |] eqn:Hc; [eauto |].
        apply nth_error_None in Hc. lia. }
      assert (Hdigit : forall n, (n < 37)%nat ->
                (exists d, _digitAt_ s n = Ok d) \/
                _digitAt_ s n = Err (invalid_uuid_string "uuid: bad digits")).
      { intros n Hn. destruct (Hin n Hn) as (c & Hc).
        rewrite (digitAt_char s n c Hc).
        destruct (is_hex_digit c); [left; eauto | right; reflexivity]. }
      assert (Hbyte : forall n, (n < 36)%nat ->
                (exists b, _hexByteAt_ s n = Ok b) \/
                _hexByteAt_ s n = Err (invalid_uuid_string "uuid: bad digits")).
      { intros n Hn. unfold _hexByteAt_.
        destruct (Hdigit n) as [(d1 & ->) | ->]; [lia | | right; reflexivity].
        destruct (Hdigit (n + 1)%nat) as [(d2 & ->) | ->];
          [lia | left; eauto | right; reflexivity]. }
      rewrite !dash_step.
      repeat match goal with
             | |- context [nth_error s ?n] =>
                 let c := fresh "c" in let Hc := fresh "Hc" in
                 destruct (Hin n) as (c & Hc); [lia |]; rewrite Hc;
                 destruct (Ascii.eqb c "-");
                 [cbn [mbind result_mbind]
                 | intros [= <-]; right; left; reflexivity]
             end.
      repeat match goal with
             | |- context [_hexByteAt_ s ?n] =>
                 let b := fresh "b" in let Hb := fresh "Hb" in
                 destruct (Hbyte n) as [(b & Hb) | Hb]; [lia | |]; rewrite Hb;
                 cbn [mbind result_mbind];
                 [| intros [= <-]; right; right; reflexivity]
             end.
      discriminate.
  - intros u Hu. pose proof (constUUID_valid s (constUUID_ok_valid s u Hu)) as Hv.
    rewrite Hv in Hu. injection Hu as <-. reflexivity.
Qed.

(** * Further properties *)

(** ** The readers *)

(** Unfolding of a run of [readAt] followed by a continuation. *)
Ltac run_reader src h offset :=
  unfold getUInt16Var, getUInt32Var, getUInt64Var, getUInt16, getUInt24,
    getUInt32, getUInt64, readAt, mbind, io_mbind, mret, io_mret;
  cbn [Z.eqb Pos.eqb io_bind exec];
  destruct (cds_readAt src h offset _) as [[cnt reply] hnext];
  cbn [fst snd].

(** X1.  A variable-width reader given its half or its full width calls
    [readAt] exactly once, at the caller's offset and for exactly [size]
    bytes, whether the read succeeds or not; the source is left in the
    state that one call leaves it in. *)
Theorem get_var_reads_once {H : Type} (host : byte_order) (r : Reader.var)
    (src : CDataSource H) (h : H) (offset : off64_t) (x : Z) (size : size_t) :
  size = Reader.half_width r \/ size = Reader.full_width r ->
  let e := exec src (Reader.get_var host r offset x size) h in
  calls e = [(offset, size)] /\
  handle e = snd (cds_readAt src h offset size).
Proof.
  intros [-> | ->]; destruct r;
    cbn [Reader.get_var Reader.half_width Reader.full_width];
    run_reader src h offset;
    destruct (cnt =? _); split; reflexivity.
Qed.

Lemma get_var_reads_once_witness :
  (4 = Reader.half_width Reader.UInt64Var \/
   4 = Reader.full_width Reader.UInt64Var) /\
  calls (exec (buffer_source [x01; x02] xff)
              (getUInt64Var LittleEndian 1 0 4) 0%nat) = [(1, 4)].
Proof.
  split; [left; reflexivity |].
  exact (proj1 (get_var_reads_once LittleEndian Reader.UInt64Var
                  (buffer_source [x01; x02] xff) 0%nat 1 0 4
                  (or_introl eq_refl))).
Defined.

(** X2.  A variable-width reader returns true exactly when the size is
    its half or its full width and [readAt] returned that many bytes. *)
Theorem get_var_success_iff {H : Type} (host : byte_order) (r : Reader.var)
    (src : CDataSource H) (h : H) (offset : off64_t) (x : Z) (size : size_t) :
  returned (exec src (Reader.get_var host r offset x size) h) = true <->
  (size = Reader.half_width r \/ size = Reader.full_width r) /\
  fst (fst (cds_readAt src h offset size)) = size.
Proof.
  destruct r; cbn [Reader.get_var Reader.half_width Reader.full_width];
    unfold getUInt16Var, getUInt32Var, getUInt64Var;
    repeat match goal with
           | |- context [size =? ?k] =>
               destruct (Z.eqb_spec size k) as [-> | ?]
           end;
    try (unfold mret, io_mret; cbn [exec returned fst];
         split; [discriminate | intros [[? | ?] _]; contradiction]);
    run_reader src h offset;
    (match goal with
     | |- context [?c =? ?k] => destruct (Z.eqb_spec c k) as [-> | Hne]
     end;
     cbn [negb io_bind exec returned fst snd];
     [split; [intros _; split; [auto | reflexivity] | reflexivity]
     | split; [discriminate | intros [_ E]; contradiction]]).
Qed.

(** *** Big-endian values *)

Lemma big_endian_from (bs : list byte) (a : Z) :
  fold_left (fun acc b => acc * 256 + u8 b) bs a
  = a * 256 ^ Z.of_nat (length bs) + big_endian bs.
Proof.
  unfold big_endian. revert a.
  induction bs as [| b bs IH]; intros a.
  - cbn [fold_left length]. change (256 ^ Z.of_nat 0) with 1. lia.
  - cbn [fold_left length]. rewrite (IH (a * 256 + u8 b)), (IH (0 * 256 + u8 b)).
    rewrite Nat2Z.inj_succ, Z.pow_succ_r by lia. lia.
Qed.

Lemma big_endian_cons (b : byte) (bs : list byte) :
  big_endian (b :: bs) = u8 b * 256 ^ Z.of_nat (length bs) + big_endian bs.
Proof.
  unfold big_endian at 1. cbn [fold_left]. rewrite big_endian_from. lia.
Qed.

Lemma big_endian_range (bs : list byte) :
  0 <= big_endian bs < 256 ^ Z.of_nat (length bs).
Proof.
  induction bs as [| b bs IH].
  - cbn. lia.
  - rewrite big_endian_cons. cbn [length].
    rewrite Nat2Z.inj_succ, Z.pow_succ_r by lia.
    pose proof (u8_range b). nia.
Qed.

Lemma u8_inj (a b : byte) : u8 a = u8 b -> a = b.
Proof.
  unfold u8. intros E. apply N2Z.inj in E.
  pose proof (Byte.of_to_N a) as Ha. rewrite E, Byte.of_to_N in Ha.
  congruence.
Qed.

(** Byte sequences of one length with one big-endian value are equal. *)
Lemma big_endian_inj (bs cs : list byte) :
  length bs = length cs -> big_endian bs = big_endian cs -> bs = cs.
Proof.
  revert cs. induction bs as [| b bs IH]; intros [| c cs] Hlen Hval;
    try discriminate Hlen; [reflexivity |].
  injection Hlen as Hlen. rewrite !big_endian_cons, <- Hlen in Hval.
  pose proof (big_endian_range bs) as Rb.
  pose proof (big_endian_range cs) as Rc. rewrite <- Hlen in Rc.
  pose proof (u8_range b). pose proof (u8_range c).
  assert (Hpow : 0 < 256 ^ Z.of_nat (length bs)) by (apply Z.pow_pos_nonneg; lia).
  assert (E : u8 b = u8 c) by nia.
  f_equal; [exact (u8_inj b c E) |].
  apply IH; [exact Hlen | nia].
Qed.

Lemma length_bytes_at (buf : list byte) (n : nat) : length (bytes_at buf n) = n.
Proof. unfold bytes_at. rewrite length_map, length_seq. reflexivity. Qed.

(** What [getUInt64] assembles on a big-endian machine: the last four
    bytes in the high half, the first four in the low half. *)
Lemma getUInt64_value_big_endian_host (buf : list byte) :
  let tmp := load BigEndian 8 buf in
  Z.lor (to_uint 64 (Z.shiftl (ntohl BigEndian (to_uint 32 (Z.land tmp 0xffffffff))) 32))
        (ntohl BigEndian (to_uint 32 (Z.shiftr tmp 32)))
  = big_endian (bytes_at (skipn 4 buf) 4) * 2 ^ 32 + big_endian (bytes_at buf 4).
Proof.
  unfold load, big_endian, bytes_at, ntohl, to_uint. simpl.
  rewrite !nth_skipn. simpl.
  fold (at_ buf 0) (at_ buf 1) (at_ buf 2) (at_ buf 3).
  fold (at_ buf 4) (at_ buf 5) (at_ buf 6) (at_ buf 7).
  pose proof (at_range buf 0). pose proof (at_range buf 1).
  pose proof (at_range buf 2). pose proof (at_range buf 3).
  pose proof (at_range buf 4). pose proof (at_range buf 5).
  pose proof (at_range buf 6). pose proof (at_range buf 7).
  generalize dependent (at_ buf 0). generalize dependent (at_ buf 1).
  generalize dependent (at_ buf 2). generalize dependent (at_ buf 3).
  generalize dependent (at_ buf 4). generalize dependent (at_ buf 5).
  generalize dependent (at_ buf 6). generalize dependent (at_ buf 7).
  intros a7 H7 a6 H6 a5 H5 a4 H4 a3 H3 a2 H2 a1 H1 a0 H0.
  set (tmp := (_ * 256 + a7)).
  change 0xffffffff with (Z.ones 32).
  rewrite Z.land_ones, Z.shiftr_div_pow2 by lia.
  rewrite Zmod_mod.
  change (2 ^ 32) with 4294967296. change (2 ^ 64) with 18446744073709551616.
  assert (Elo : tmp mod 4294967296 = ((a4 * 256 + a5) * 256 + a6) * 256 + a7)
    by (subst tmp; Z.div_mod_to_equations; lia).
  assert (Ehi : (tmp / 4294967296) mod 4294967296
                = ((a0 * 256 + a1) * 256 + a2) * 256 + a3)
    by (subst tmp; Z.div_mod_to_equations; lia).
  rewrite Elo, Ehi.
  rewrite Z.shiftl_mul_pow2 by lia. change (2 ^ 32) with 4294967296.
  rewrite Z.mod_small by lia.
  rewrite <- (Z.shiftl_mul_pow2 _ 32) by lia.
  rewrite lor_shiftl_add by (change (2 ^ 32) with 4294967296; lia).
  change (2 ^ 32) with 4294967296. lia.
Qed.

(** A run of a variable-width reader at an accepted size, in full. *)
Lemma exec_get_var {H : Type} (host : byte_order) (r : Reader.var)
    (src : CDataSource H) (h : H) (offset : off64_t) (x : Z) (size : size_t) :
  size = Reader.half_width r \/ size = Reader.full_width r ->
  (r = Reader.UInt64Var -> size = 8 -> host = LittleEndian) ->
  exec src (Reader.get_var host r offset x size) h =
    let '(n, buf, h1) := cds_readAt src h offset size in
    (if n =? size
     then (true, big_endian (bytes_at buf (Z.to_nat size)))
     else (false, if size =? Reader.full_width r then 0 else x),
     h1, [(offset, size)]).
Proof.
  intros [-> | ->] Hhost; destruct r;
    cbn [Reader.get_var Reader.half_width Reader.full_width];
    try rewrite (Hhost eq_refl eq_refl);
    run_reader src h offset;
    (destruct (cnt =? _); cbn [negb io_bind exec Z.eqb Pos.eqb]; [| reflexivity]).
  - reflexivity.
  - rewrite getUInt16_value. reflexivity.
  - rewrite getUInt32_value. reflexivity.
  - rewrite getUInt16_value. reflexivity.
  - rewrite getUInt32_value. reflexivity.
  - rewrite getUInt64_value. reflexivity.
Qed.

(** X3.  A variable-width reader given its half or its full width, on a
    source that returns that many bytes, returns true and stores their
    big-endian value: a narrower field is zero-extended.  ([getUInt64Var]
    at size 8 on a little-endian machine, like [getUInt64].) *)
Theorem get_var_big_endian {H : Type} (host : byte_order) (r : Reader.var)
    (src : CDataSource H) (h : H) (offset : off64_t) (x : Z) (size : size_t)
    (buf : list byte) (h1 : H) :
  size = Reader.half_width r \/ size = Reader.full_width r ->
  (r = Reader.UInt64Var -> size = 8 -> host = LittleEndian) ->
  cds_readAt src h offset size = (size, buf, h1) ->
  Z.of_nat (length buf) = size ->
  let e := exec src (Reader.get_var host r offset x size) h in
  returned e = true /\ out e = big_endian buf.
Proof.
  intros Hsize Hhost Hread Hlen e. subst e.
  rewrite exec_get_var by assumption. rewrite Hread, Z.eqb_refl.
  rewrite bytes_at_all by lia. split; reflexivity.
Qed.

Lemma get_var_big_endian_witness :
  let src := buffer_source [x00; xab; xcd; xef; x01] xff in
  (4 = Reader.half_width Reader.UInt64Var \/
   4 = Reader.full_width Reader.UInt64Var) /\
  cds_readAt src 0%nat 1 4 = (4, [xab; xcd; xef; x01], 1%nat) /\
  out (exec src (getUInt64Var BigEndian 1 77 4) 0%nat) = 0xabcdef01.
Proof.
  intros src. split; [left; reflexivity |]. split; [reflexivity |].
  exact (proj2 (get_var_big_endian BigEndian Reader.UInt64Var src 0%nat 1 77 4
                  [xab; xcd; xef; x01] 1%nat (or_introl eq_refl)
                  (fun _ (E : 4 = 8) => match Z.eqb_neq 4 8 with
                                        | conj f _ => False_ind _ (f eq_refl E)
                                        end)
                  eq_refl eq_refl)).
Defined.

(** The value a fixed-width reader leaves in [*x] fits the type of
    [*x]. *)
Lemma fixed_out_range {H : Type} (host : byte_order) (r : Reader.fixed)
    (src : CDataSource H) (h : H) (offset : off64_t) (x : Z) :
  let v := out (exec src (Reader.get host r offset x) h) in
  0 <= v < 2 ^ fixed_out_bits r /\
  (r = Reader.UInt24 -> v < 2 ^ 24).
Proof.
  destruct r; cbn [Reader.get fixed_out_bits]; run_reader src h offset;
    (destruct (cnt =? _); cbn [negb io_bind exec out fst snd];
     [| split; [split; [lia | apply Z.pow_pos_nonneg; lia] | intros _; reflexivity]]).
  - split; [| discriminate]. unfold to_uint. apply Z.mod_pos_bound. reflexivity.
  - rewrite getUInt24_value.
    pose proof (big_endian_range (bytes_at reply 3)) as R.
    rewrite length_bytes_at in R. change (256 ^ Z.of_nat 3) with (2 ^ 24) in R.
    change (2 ^ 24) with 16777216 in *. change (2 ^ 32) with 4294967296. lia.
  - split; [| discriminate]. rewrite getUInt32_value.
    pose proof (big_endian_range (bytes_at reply 4)) as R.
    rewrite length_bytes_at in R. exact R.
  - split; [| discriminate]. destruct host.
    + rewrite getUInt64_value.
      pose proof (big_endian_range (bytes_at reply 8)) as R.
      rewrite length_bytes_at in R. exact R.
    + rewrite getUInt64_value_big_endian_host.
      pose proof (big_endian_range (bytes_at reply 4)) as R1.
      pose proof (big_endian_range (bytes_at (skipn 4 reply) 4)) as R2.
      rewrite length_bytes_at in R1, R2.
      change (256 ^ Z.of_nat 4) with 4294967296 in *.
      change (2 ^ 32) with 4294967296.
      change (2 ^ 64) with 18446744073709551616. lia.
Qed.

(** X4.  Whatever the source returns and whatever the byte order of the
    machine, the value a fixed-width reader leaves in [*x] fits the type
    of [*x]; for [getUInt24] it is below 2^24. *)
Theorem get_out_fits {H : Type} (host : byte_order) (r : Reader.fixed)
    (src : CDataSource H) (h : H) (offset : off64_t) (x : Z) :
  let v := out (exec src (Reader.get host r offset x) h) in
  0 <= v < 2 ^ fixed_out_bits r /\
  (r = Reader.UInt24 -> v < 2 ^ 24).
Proof. exact (fixed_out_range host r src h offset x). Qed.

(** X5.  When [*x] holds a value of its type before the call, it holds
    one after the call of a variable-width reader, for every size and
    every reply of the source: the value read at an accepted size, zero,
    or the old value. *)
Theorem get_var_out_fits {H : Type} (host : byte_order) (r : Reader.var)
    (src : CDataSource H) (h : H) (offset : off64_t) (x : Z) (size : size_t) :
  0 <= x < 2 ^ var_out_bits r ->
  let v := out (exec src (Reader.get_var host r offset x size) h) in
  0 <= v < 2 ^ var_out_bits r.
Proof.
  intros Hx.
  destruct (Z.eq_dec size (Reader.full_width r)) as [-> | Hfull].
  - rewrite get_var_full_width. destruct r.
    + exact (proj1 (fixed_out_range host Reader.UInt16 src h offset x)).
    + exact (proj1 (fixed_out_range host Reader.UInt32 src h offset x)).
    + exact (proj1 (fixed_out_range host Reader.UInt64 src h offset x)).
  - destruct (Z.eq_dec size (Reader.half_width r)) as [-> | Hhalf].
    + rewrite exec_get_var
        by (auto; intros -> E; cbn [Reader.half_width] in E; discriminate E).
      destruct (cds_readAt src h offset (Reader.half_width r)) as [[n buf] h1].
      destruct (n =? Reader.half_width r); cbn [out fst snd].
      * pose proof (big_endian_range
                      (bytes_at buf (Z.to_nat (Reader.half_width r)))) as R.
        rewrite length_bytes_at in R.
        destruct r; cbn [Reader.half_width var_out_bits Reader.full_width] in *;
          unfold var_out_bits; cbn [Reader.full_width];
          split; try lia;
          eapply Z.lt_le_trans; try apply R; vm_compute; discriminate.
      * destruct (Z.eqb_spec (Reader.half_width r) (Reader.full_width r));
          [contradiction | exact Hx].
    + assert (E : Reader.get_var host r offset x size = Ret (false, x)).
      { destruct r;
          unfold Reader.get_var, Reader.half_width, Reader.full_width,
            getUInt16Var, getUInt32Var, getUInt64Var in *;
          repeat match goal with
                 | |- context [size =? ?k] =>
                     destruct (Z.eqb_spec size k) as [? | ?]
                 end;
          try contradiction; reflexivity. }
      rewrite E. exact Hx.
Qed.

Lemma get_var_out_fits_witness :
  0 <= 0xbeef < 2 ^ var_out_bits Reader.UInt16Var /\
  0 <= out (exec (buffer_source [x12] xff) (getUInt16Var 0 0xbeef 2) 0%nat)
    < 2 ^ var_out_bits Reader.UInt16Var.
Proof.
  split; [split; [discriminate | reflexivity] |].
  apply (get_var_out_fits LittleEndian Reader.UInt16Var
           (buffer_source [x12] xff) 0%nat 0 0xbeef 2).
  split; [discriminate | reflexivity].
Defined.

(** X6.  On a big-endian machine [getUInt64] does not give the
    big-endian value of the eight bytes: the value of the last four
    bytes ends up in the high half and that of the first four in the low
    half. *)
Theorem getUInt64_big_endian_host_halves {H : Type} (src : CDataSource H)
    (h : H) (offset : off64_t) (x : uint64_t) (buf : list byte) (h1 : H) :
  cds_readAt src h offset 8 = (8, buf, h1) ->
  let e := exec src (getUInt64 BigEndian offset x) h in
  returned e = true /\
  out e = big_endian (bytes_at (skipn 4 buf) 4) * 2 ^ 32
          + big_endian (bytes_at buf 4).
Proof.
  intros Hread. unfold getUInt64, readAt, mbind, io_mbind, mret, io_mret.
  cbn [io_bind exec]. rewrite Hread. cbn [Z.eqb Pos.eqb negb exec returned out fst snd].
  rewrite getUInt64_value_big_endian_host. split; reflexivity.
Qed.

Lemma getUInt64_big_endian_host_halves_witness :
  let src := buffer_source [x01; x02; x03; x04; x05; x06; x07; x08] xff in
  cds_readAt src 0%nat 0 8
  = (8, [x01; x02; x03; x04; x05; x06; x07; x08], 1%nat) /\
  out (exec src (getUInt64 BigEndian 0 0) 0%nat)
  = big_endian [x05; x06; x07; x08] * 2 ^ 32 + big_endian [x01; x02; x03; x04].
Proof.
  intros src. split; [reflexivity |].
  exact (proj2 (getUInt64_big_endian_host_halves src 0%nat 0 0
                  [x01; x02; x03; x04; x05; x06; x07; x08] 1%nat eq_refl)).
Defined.

(** X7.  A fixed-width read loses nothing: two successful reads that
    store the same value read the same bytes. *)
Theorem get_lossless {H : Type} (host : byte_order) (r : Reader.fixed)
    (src1 src2 : CDataSource H) (h1 h2 : H) (offset1 offset2 : off64_t)
    (x1 x2 : Z) (buf1 buf2 : list byte) (k1 k2 : H) :
  (r = Reader.UInt64 -> host = LittleEndian) ->
  cds_readAt src1 h1 offset1 (Reader.nbytes r) = (Reader.nbytes r, buf1, k1) ->
  cds_readAt src2 h2 offset2 (Reader.nbytes r) = (Reader.nbytes r, buf2, k2) ->
  Z.of_nat (length buf1) = Reader.nbytes r ->
  Z.of_nat (length buf2) = Reader.nbytes r ->
  out (exec src1 (Reader.get host r offset1 x1) h1)
  = out (exec src2 (Reader.get host r offset2 x2) h2) ->
  buf1 = buf2.
Proof.
  intros Hhost R1 R2 L1 L2.
  rewrite !exec_get by exact Hhost. rewrite R1, R2, Z.eqb_refl.
  cbn [out fst snd]. rewrite !bytes_at_all by lia.
  apply big_endian_inj. lia.
Qed.

Lemma get_lossless_witness :
  let src := buffer_source [x0a; x0b; x0c; x0a; x0b; x0c] xff in
  cds_readAt src 0%nat 0 3 = (3, [x0a; x0b; x0c], 1%nat) /\
  cds_readAt src 5%nat 3 3 = (3, [x0a; x0b; x0c], 6%nat) /\
  out (exec src (getUInt24 0 1) 0%nat) = out (exec src (getUInt24 3 2) 5%nat) /\
  [x0a; x0b; x0c] = [x0a; x0b; x0c].
Proof.
  intros src. split; [reflexivity |]. split; [reflexivity |].
  split; [reflexivity |].
  exact (get_lossless LittleEndian Reader.UInt24 src src 0%nat 5%nat 0 3 1 2
           [x0a; x0b; x0c] [x0a; x0b; x0c] 1%nat 6%nat
           (fun E => match E in _ = y return
                       match y with Reader.UInt64 => _ | _ => True end
                     with eq_refl => I end)
           eq_refl eq_refl eq_refl eq_refl eq_refl).
Defined.

(** X8.  What a variable-width reader returns, the calls it makes and,
    when it returns true, the value it stores do not depend on what [*x]
    held before the call. *)
Theorem get_var_success_ignores_out {H : Type} (host : byte_order)
    (r : Reader.var) (src : CDataSource H) (h : H) (offset : off64_t)
    (x y : Z) (size : size_t) :
  let ex := exec src (Reader.get_var host r offset x size) h in
  let ey := exec src (Reader.get_var host r offset y size) h in
  returned ex = returned ey /\ calls ex = calls ey /\ handle ex = handle ey /\
  (returned ex = true -> out ex = out ey).
Proof.
  destruct r; cbn [Reader.get_var];
    unfold getUInt16Var, getUInt32Var, getUInt64Var;
    repeat match goal with
           | |- context [size =? ?k] =>
               destruct (Z.eqb_spec size k) as [-> | ?]
           end;
    try (unfold mret, io_mret; cbn [exec returned calls handle fst snd];
         repeat split; discriminate);
    run_reader src h offset;
    (destruct (cnt =? _);
     cbn [negb io_bind exec returned calls handle out fst snd];
     repeat split; discriminate).
Qed.

(** ** wrap and the struct it returns *)

Section WrapMore.

Context {MetaDataBase : Type} (INVALID_OPERATION : status_t).

Lemma method_call_dead {R : Type} (this : ptr)
    (m : forall S, Extractor.MediaExtractorPluginHelper MetaDataBase S -> S -> R * S)
    (h : gmap ptr (Extractor.object MetaDataBase)) :
  h !! this = None -> method_call this m h = None.
Proof. intros Hdead. unfold method_call. rewrite Hdead. reflexivity. Qed.


(** [delete] destroys a live object; a second [delete] of the same
    pointer has no defined result. *)
Lemma delete_extractor_twice (extractor : ptr)
    (o : Extractor.object MetaDataBase)
    (h : gmap ptr (Extractor.object MetaDataBase)) :
  extractor <> NULL ->
  h !! extractor = Some o ->
  delete_extractor extractor h = Some (delete extractor h) /\
  delete_extractor extractor (delete extractor h) = None /\
  delete extractor h !! extractor = None.
Proof.
  intros Hnn Hlive.
  assert (Hgone : delete extractor h !! extractor = None)
    by apply lookup_delete_eq.
  unfold delete_extractor.
  destruct (decide (extractor = NULL)) as [E | _]; [contradiction |].
  rewrite Hlive, Hgone. repeat split.
Qed.

(** With no object at the struct's [data], no capability slot of a struct
    made by [wrap] has a result. *)
Lemma wrapped_capabilities_dead (extractor wrapper : ptr)
    (m m' : memory MetaDataBase) (c : CMediaExtractor MetaDataBase)
    (h : gmap ptr (Extractor.object MetaDataBase)) :
  wrap INVALID_OPERATION extractor m = Some (wrapper, m') ->
  structs m' !! wrapper = Some c ->
  h !! extractor = None ->
  capabilities_undefined c h.
Proof.
  intros Hwrap Hc Hdead.
  destruct (wrap_returns INVALID_OPERATION extractor m
              (wrap_some_block_left INVALID_OPERATION _ _ _ _ Hwrap))
    as (wrapper0 & m0 & c0 & Hwrap0 & _ & Hc0 & _ & Hdata & _ & Hct & Hgt
        & Hgtm & Hgm & Hfl & Hsm & Hnm).
  rewrite Hwrap in Hwrap0. injection Hwrap0 as <- <-.
  rewrite Hc in Hc0. injection Hc0 as <-.
  unfold capabilities_undefined. rewrite Hdata.
  repeat split; eexists; (split; [eassumption |]); intros; cbv beta;
    apply method_call_dead; exact Hdead.
Qed.

(** What [wrap] does to memory. *)
Lemma wrap_effect (extractor : ptr) (m : memory MetaDataBase) :
  match wrap INVALID_OPERATION extractor m with
  | Some (wrapper, m') =>
      blocks_left m = S (blocks_left m') /\
      wrapper <> NULL /\
      structs m !! wrapper = None /\
      objects m !! wrapper = None /\
      objects m' = objects m /\
      forall p, p <> wrapper -> structs m' !! p = structs m !! p
  | None => blocks_left m = 0%nat
  end.
Proof.
  unfold wrap, malloc. destruct (blocks_left m) as [| k] eqn:Hleft.
  - destruct (decide (NULL = NULL)); [reflexivity | contradiction].
  - set (X := {[NULL]} ∪ dom (objects m) ∪ dom (structs m) : gset ptr).
    pose proof (is_fresh X) as Hfresh.
    destruct (decide (fresh X = NULL)) as [E | Hnn].
    + exfalso. apply Hfresh. rewrite E. subst X. set_solver.
    + cbn [objects structs blocks_left].
      split; [reflexivity |]. split; [exact Hnn |].
      split; [apply not_elem_of_dom; subst X; set_solver |].
      split; [apply not_elem_of_dom; subst X; set_solver |].
      split; [reflexivity |].
      intros p Hp. apply lookup_insert_ne. congruence.
Qed.

(** X9.  The [free] slot of the struct [wrap] returns destroys the
    extractor and nothing else.  After it, a second [free] and every
    capability slot called on the struct's [data] have no defined result:
    the struct outlives the extractor it points to. *)
Theorem wrapped_free_destroys (extractor : ptr) (m : memory MetaDataBase)
    (o : Extractor.object MetaDataBase)
    (h : gmap ptr (Extractor.object MetaDataBase)) :
  blocks_left m <> 0%nat ->
  extractor <> NULL ->
  h !! extractor = Some o ->
  exists wrapper m' c f,
    wrap INVALID_OPERATION extractor m = Some (wrapper, m') /\
    structs m' !! wrapper = Some c /\
    free c = Some f /\
    f (data c) h = Some (delete extractor h) /\
    delete extractor h !! extractor = None /\
    (forall q, q <> extractor -> delete extractor h !! q = h !! q) /\
    f (data c) (delete extractor h) = None /\
    capabilities_undefined c (delete extractor h).
Proof.
  intros Hleft Hnn Hlive.
  destruct (wrap_returns INVALID_OPERATION extractor m Hleft)
    as (wrapper & m' & c & Hwrap & _ & Hc & _ & Hdata & Hfr & _).
  exists wrapper, m', c, (fun data => delete_extractor data).
  destruct (delete_extractor_twice extractor o h Hnn Hlive) as (F1 & F2 & Hgone).
  split; [exact Hwrap |]. split; [exact Hc |]. split; [exact Hfr |].
  rewrite Hdata.
  split; [exact F1 |]. split; [exact Hgone |].
  split; [intros q Hq; apply lookup_delete_ne; congruence |].
  split; [exact F2 |].
  exact (wrapped_capabilities_dead extractor wrapper m m' c _ Hwrap Hc Hgone).
Qed.


(** X11.  [wrap] fails exactly when [malloc] has no block left.  When
    it returns, the struct sits at a non-null address at which there was
    neither a struct nor an extractor before, one block has been used,
    and the extractors and the structs made earlier are as they were. *)
Theorem wrap_allocates_fresh (extractor : ptr) (m : memory MetaDataBase) :
  match wrap INVALID_OPERATION extractor m with
  | Some (wrapper, m') =>
      blocks_left m = S (blocks_left m') /\
      wrapper <> NULL /\
      structs m !! wrapper = None /\
      objects m !! wrapper = None /\
      objects m' = objects m /\
      forall p, p <> wrapper -> structs m' !! p = structs m !! p
  | None => blocks_left m = 0%nat
  end.
Proof. exact (wrap_effect extractor m). Qed.

(** X12.  [wrap] does not check its argument: given a null pointer it
    returns a struct all the same.  With no object at the null address,
    that struct's [free] slot does nothing and none of its capability
    slots has a defined result. *)
Theorem wrap_null_extractor (m : memory MetaDataBase)
    (h : gmap ptr (Extractor.object MetaDataBase)) :
  blocks_left m <> 0%nat ->
  h !! NULL = None ->
  exists wrapper m' c f,
    wrap INVALID_OPERATION NULL m = Some (wrapper, m') /\
    structs m' !! wrapper = Some c /\
    data c = NULL /\
    free c = Some f /\ f (data c) h = Some h /\
    capabilities_undefined c h.
Proof.
  intros Hleft Hdead.
  destruct (wrap_returns INVALID_OPERATION NULL m Hleft)
    as (wrapper & m' & c & Hwrap & _ & Hc & _ & Hdata & Hfr & _).
  exists wrapper, m', c, (fun data => delete_extractor data).
  split; [exact Hwrap |]. split; [exact Hc |]. split; [exact Hdata |].
  split; [exact Hfr |]. rewrite Hdata.
  split; [reflexivity |].
  exact (wrapped_capabilities_dead NULL wrapper m m' c h Hwrap Hc Hdead).
Qed.

(** X13.  [wrap] keeps no record of what it has wrapped: wrapping one
    extractor twice gives two structs at different addresses with the
    same [data].  After [free] through the first, every capability slot
    of the second and its [free] have no defined result. *)
Theorem wrap_twice_shares_extractor (extractor : ptr)
    (m : memory MetaDataBase) (o : Extractor.object MetaDataBase)
    (h : gmap ptr (Extractor.object MetaDataBase)) :
  (2 <= blocks_left m)%nat ->
  extractor <> NULL ->
  h !! extractor = Some o ->
  exists w1 m1 w2 m2 c1 c2 f1 f2,
    wrap INVALID_OPERATION extractor m = Some (w1, m1) /\
    wrap INVALID_OPERATION extractor m1 = Some (w2, m2) /\
    w1 <> w2 /\
    structs m2 !! w1 = Some c1 /\ structs m2 !! w2 = Some c2 /\
    data c1 = extractor /\ data c2 = extractor /\
    free c1 = Some f1 /\ free c2 = Some f2 /\
    f1 (data c1) h = Some (delete extractor h) /\
    f2 (data c2) (delete extractor h) = None /\
    capabilities_undefined c2 (delete extractor h).
Proof.
  intros Hleft Hnn Hlive.
  destruct (wrap_returns INVALID_OPERATION extractor m)
    as (w1 & m1 & c1 & Hwrap1 & _ & Hc1 & _ & Hdata1 & Hfr1 & _); [lia |].
  pose proof (wrap_effect extractor m) as Heff1.
  rewrite Hwrap1 in Heff1. destruct Heff1 as (Hblocks & _).
  destruct (wrap_returns INVALID_OPERATION extractor m1)
    as (w2 & m2 & c2 & Hwrap2 & _ & Hc2 & _ & Hdata2 & Hfr2 & _); [lia |].
  pose proof (wrap_effect extractor m1) as Heff2.
  rewrite Hwrap2 in Heff2. destruct Heff2 as (_ & _ & Hfresh2 & _ & _ & Hkeep).
  assert (Hne : w1 <> w2) by (intros ->; congruence).
  destruct (delete_extractor_twice extractor o h Hnn Hlive) as (F1 & F2 & Hgone).
  exists w1, m1, w2, m2, c1, c2.
  exists (fun data => delete_extractor data), (fun data => delete_extractor data).
  split; [exact Hwrap1 |]. split; [exact Hwrap2 |]. split; [exact Hne |].
  split; [rewrite Hkeep by exact Hne; exact Hc1 |]. split; [exact Hc2 |].
  split; [exact Hdata1 |]. split; [exact Hdata2 |].
  split; [exact Hfr1 |]. split; [exact Hfr2 |].
  rewrite Hdata1, Hdata2. split; [exact F1 |]. split; [exact F2 |].
  exact (wrapped_capabilities_dead extractor w2 m1 m2 c2 _ Hwrap2 Hc2 Hgone).
Qed.

End WrapMore.

(** The statements above at the sample extractor. *)

Lemma wrapped_free_destroys_witness :
  blocks_left sample_memory <> 0%nat /\
  64 <> NULL /\
  objects sample_memory !! 64 = Some (Extractor.Object sample_class 2%nat) /\
  exists wrapper m' c f,
    wrap (-38) 64 sample_memory = Some (wrapper, m') /\
    structs m' !! wrapper = Some c /\
    free c = Some f /\
    f (data c) (objects sample_memory) = Some (delete 64 (objects sample_memory)) /\
    f (data c) (delete 64 (objects sample_memory)) = None.
Proof.
  split; [discriminate |]. split; [discriminate |]. split; [reflexivity |].
  destruct (wrapped_free_destroys (-38) 64 sample_memory
              (Extractor.Object sample_class 2%nat) (objects sample_memory))
    as (wrapper & m' & c & f & Hwrap & Hc & Hf & Hfree & _ & _ & Htwice & _);
    [discriminate | discriminate | reflexivity |].
  exists wrapper, m', c, f.
  split; [exact Hwrap |]. split; [exact Hc |]. split; [exact Hf |].
  split; [exact Hfree | exact Htwice].
Defined.


Lemma wrap_null_extractor_witness :
  blocks_left sample_memory <> 0%nat /\
  objects sample_memory !! NULL = None /\
  exists wrapper m' c f,
    wrap (-38) NULL sample_memory = Some (wrapper, m') /\
    structs m' !! wrapper = Some c /\
    data c = NULL /\
    free c = Some f /\
    f (data c) (objects sample_memory) = Some (objects sample_memory).
Proof.
  split; [discriminate |]. split; [reflexivity |].
  destruct (wrap_null_extractor (-38) sample_memory (objects sample_memory))
    as (wrapper & m' & c & f & Hwrap & Hc & Hdata & Hf & Hfree & _);
    [discriminate | reflexivity |].
  exists wrapper, m', c, f.
  split; [exact Hwrap |]. split; [exact Hc |]. split; [exact Hdata |].
  split; [exact Hf | exact Hfree].
Defined.

Lemma wrap_twice_shares_extractor_witness :
  let m := {| objects := objects sample_memory;
              structs := structs sample_memory;
              blocks_left := 2 |} in
  (2 <= blocks_left m)%nat /\
  64 <> NULL /\
  objects m !! 64 = Some (Extractor.Object sample_class 2%nat) /\
  exists w1 m1 w2 m2 c2 g,
    wrap (-38) 64 m = Some (w1, m1) /\
    wrap (-38) 64 m1 = Some (w2, m2) /\
    w1 <> w2 /\
    structs m2 !! w2 = Some c2 /\
    countTracks c2 = Some g /\
    g (data c2) (delete 64 (objects m)) = None.
Proof.
  intros m. split; [apply le_n |]. split; [discriminate |].
  split; [reflexivity |].
  destruct (wrap_twice_shares_extractor (-38) 64 m
              (Extractor.Object sample_class 2%nat) (objects m))
    as (w1 & m1 & w2 & m2 & c1 & c2 & f1 & f2 & Hw1 & Hw2 & Hne & _ & Hc2
        & Hd1 & _ & Hf1 & _ & Hfree & _ & (g & Hg & Hcall) & _);
    [apply le_n | discriminate | reflexivity |].
  exists w1, m1, w2, m2, c2, g.
  split; [exact Hw1 |]. split; [exact Hw2 |]. split; [exact Hne |].
  split; [exact Hc2 |]. split; [exact Hg |].
  exact Hcall.
Defined.

(** ** constUUID *)

(** In a valid array both characters of every pair are hex digits. *)
Lemma valid_pair (s : list ascii) (n : nat) :
  valid s -> In n byte_positions ->
  exists c1 c2,
    nth_error s n = Some c1 /\ is_hex_digit c1 = true /\
    nth_error s (n + 1) = Some c2 /\ is_hex_digit c2 = true.
Proof.
  intros (_ & _ & Hdigit) Hn.
  assert (Hn' : In n digit_positions /\ In (n + 1)%nat digit_positions).
  { repeat (destruct Hn as [<- | Hn];
            [split; apply in_positions; reflexivity |]).
    destruct Hn. }
  destruct (Hdigit n (proj1 Hn')) as (c1 & H1 & D1).
  destruct (Hdigit (n + 1)%nat (proj2 Hn')) as (c2 & H2 & D2).
  exists c1, c2. auto.
Qed.

(** Every digit position is the first or the second character of a
    pair. *)
Lemma digit_position_in_pair (i : nat) :
  In i digit_positions ->
  exists n, In n byte_positions /\ (i = n \/ i = (n + 1)%nat).
Proof.
  intros Hi.
  assert (Hall : forallb (fun i => existsb (fun n => Nat.eqb i n || Nat.eqb i (n + 1))
                                      byte_positions)
                         digit_positions = true) by reflexivity.
  rewrite forallb_forall in Hall. specialize (Hall i Hi).
  apply existsb_exists in Hall. destruct Hall as (n & Hn & E).
  exists n. split; [exact Hn |].
  apply orb_true_iff in E. destruct E as [E | E]; apply Nat.eqb_eq in E; auto.
Qed.

(** Inside an array of 37 characters [_hexByteAt_] gives a byte or the
    diagnostic for a bad digit. *)
Lemma hexByteAt_outcome (s : list ascii) (n : nat) :
  length s = 37%nat -> (n < 36)%nat ->
  (exists b, _hexByteAt_ s n = Ok b) \/
  _hexByteAt_ s n = Err (invalid_uuid_string "uuid: bad digits").
Proof.
  intros Hlen Hn.
  assert (Hdigit : forall k, (k < 37)%nat ->
            (exists d, _digitAt_ s k = Ok d) \/
            _digitAt_ s k = Err (invalid_uuid_string "uuid: bad digits")).
  { intros k Hk. destruct (nth_error s k) as [c |] eqn:Hc.
    - rewrite (digitAt_char s k c Hc).
      destruct (is_hex_digit c); [left; eauto | right; reflexivity].
    - apply nth_error_None in Hc. lia. }
  unfold _hexByteAt_.
  destruct (Hdigit n) as [(d1 & ->) | ->]; [lia | | right; reflexivity].
  destruct (Hdigit (n + 1)%nat) as [(d2 & ->) | ->];
    [lia | left; eauto | right; reflexivity].
Qed.

Lemma hex_digit_not_dash (c : ascii) :
  is_hex_digit c = true -> Ascii.eqb c "-" = false.
Proof.
  destruct c as [[] [] [] [] [] [] [] []]; intros Hc;
    try discriminate Hc; reflexivity.
Qed.

(** [constUUID] reads the length of the array, the separator test at
    indices below 36 and the digits at indices below 36, nothing else. *)
Lemma constUUID_congr (s t : list ascii) :
  length s = length t ->
  (forall i, (i < 36)%nat ->
     (index s i ≫= _assertIsDash_) = (index t i ≫= _assertIsDash_)) ->
  (forall i, (i < 36)%nat -> _digitAt_ s i = _digitAt_ t i) ->
  constUUID s = constUUID t.
Proof.
  intros Hlen Hdash Hdigit. unfold constUUID, _hexByteAt_. rewrite Hlen.
  rewrite (Hdash 8%nat), (Hdash 13%nat), (Hdash 18%nat), (Hdash 23%nat) by lia.
  repeat match goal with
         | |- context [_digitAt_ s ?k] => rewrite (Hdigit k) by (cbn; lia)
         end.
  reflexivity.
Qed.

(** X14.  What [constUUID] returns is an array of sixteen bytes: sixteen
    values, each from 0 to 255. *)
Theorem constUUID_sixteen_bytes (s : list ascii) (u : media_uuid_t) :
  constUUID s = Ok u ->
  length u = 16%nat /\ Forall (fun b => 0 <= b < 256) u.
Proof.
  intros Hu. pose proof (constUUID_ok_valid s u Hu) as Hv.
  rewrite (constUUID_valid s Hv) in Hu.
  assert (Eu : u = map (byte_at s) byte_positions) by congruence.
  rewrite Eu. clear Hu Eu.
  split; [reflexivity |].
  apply List.Forall_forall. intros b Hb.
  apply in_map_iff in Hb. destruct Hb as (n & <- & Hn).
  destruct (valid_pair s n Hv Hn) as (c1 & c2 & H1 & D1 & H2 & D2).
  unfold byte_at.
  rewrite (nth_error_nth_zero s n c1 H1), (nth_error_nth_zero s (n + 1) c2 H2).
  pose proof (hex_value_range c1 D1). pose proof (hex_value_range c2 D2). lia.
Qed.

Lemma constUUID_sixteen_bytes_witness :
  constUUID (literal "00000000-0000-0000-0000-0000000000ff")
  = Ok [0; 0; 0; 0; 0; 0; 0; 0; 0; 0; 0; 0; 0; 0; 0; 255] /\
  length [0; 0; 0; 0; 0; 0; 0; 0; 0; 0; 0; 0; 0; 0; 0; 255] = 16%nat.
Proof.
  split; [reflexivity |].
  exact (proj1 (constUUID_sixteen_bytes
                  (literal "00000000-0000-0000-0000-0000000000ff") _ eq_refl)).
Defined.

(** X15.  [constUUID] never reads the last element of the array: two
    arrays of 37 characters that agree on the first 36 give the same
    result, so an array whose last element is not the null character is
    accepted like a literal. *)
Theorem constUUID_ignores_last (s t : list ascii) :
  length s = 37%nat -> length t = 37%nat ->
  firstn 36 s = firstn 36 t ->
  constUUID s = constUUID t.
Proof.
  intros Hs Ht Hfirst.
  assert (Hnth : forall i, (i < 36)%nat -> nth_error s i = nth_error t i).
  { intros i Hi.
    pose proof (nth_error_firstn 36 s i) as Es.
    pose proof (nth_error_firstn 36 t i) as Et.
    apply Nat.ltb_lt in Hi. rewrite Hi in Es, Et.
    rewrite <- Es, <- Et, Hfirst. reflexivity. }
  apply constUUID_congr.
  - congruence.
  - intros i Hi. unfold index. rewrite (Hnth i Hi). reflexivity.
  - intros i Hi. unfold _digitAt_, index. rewrite (Hnth i Hi). reflexivity.
Qed.

Lemma constUUID_ignores_last_witness :
  let s := literal "7d613858-5837-4a38-84c5-332d1cddee27" in
  let t := list_ascii_of_string "7d613858-5837-4a38-84c5-332d1cddee27!" in
  length s = 37%nat /\ length t = 37%nat /\ firstn 36 s = firstn 36 t /\
  constUUID t
  = Ok [0x7d; 0x61; 0x38; 0x58; 0x58; 0x37; 0x4a; 0x38;
        0x84; 0xc5; 0x33; 0x2d; 0x1c; 0xdd; 0xee; 0x27].
Proof.
  intros s t. split; [reflexivity |]. split; [reflexivity |].
  split; [reflexivity |].
  rewrite <- (constUUID_ignores_last s t eq_refl eq_refl eq_refl).
  reflexivity.
Defined.

(** X16.  Upper and lower case are the same to [constUUID]: two arrays
    of one length give the same result, bytes or diagnostic, when at every
    index below 36 they hold the same character or hex digits of the same
    value. *)
Theorem constUUID_case_insensitive (s t : list ascii) :
  length s = length t ->
  (forall i c d, (i < 36)%nat ->
     nth_error s i = Some c -> nth_error t i = Some d -> same_digit c d) ->
  constUUID s = constUUID t.
Proof.
  intros Hlen Hsame.
  assert (Hcases : forall i, (i < 36)%nat ->
            (nth_error s i = None /\ nth_error t i = None) \/
            exists c d, nth_error s i = Some c /\ nth_error t i = Some d /\
                        same_digit c d).
  { intros i Hi.
    destruct (nth_error s i) as [c |] eqn:Hc;
      destruct (nth_error t i) as [d |] eqn:Hd.
    - right. exists c, d.
      split; [reflexivity |]. split; [reflexivity |].
      exact (Hsame i c d Hi Hc Hd).
    - apply nth_error_None in Hd.
      assert (Hlt : nth_error s i <> None) by congruence.
      apply nth_error_Some in Hlt. lia.
    - apply nth_error_None in Hc.
      assert (Hlt : nth_error t i <> None) by congruence.
      apply nth_error_Some in Hlt. lia.
    - left. split; reflexivity. }
  apply constUUID_congr; [exact Hlen | |]; intros i Hi;
    destruct (Hcases i Hi) as [[Hs Ht] | (c & d & Hc & Hd & [<- | (Dc & Dd & Ev)])].
  - unfold index. rewrite Hs, Ht. reflexivity.
  - unfold index. rewrite Hc, Hd. reflexivity.
  - rewrite !dash_step, Hc, Hd.
    rewrite (hex_digit_not_dash c Dc), (hex_digit_not_dash d Dd). reflexivity.
  - unfold _digitAt_, index. rewrite Hs, Ht. reflexivity.
  - rewrite (digitAt_char s i c Hc), (digitAt_char t i c Hd). reflexivity.
  - rewrite (digitAt_char s i c Hc), (digitAt_char t i d Hd), Dc, Dd, Ev.
    reflexivity.
Qed.

Lemma constUUID_case_insensitive_witness :
  let s := literal "7D613858-5837-4A38-84C5-332D1CDDEE27" in
  let t := literal "7d613858-5837-4a38-84c5-332d1cddee27" in
  length s = length t /\
  constUUID s
  = Ok [0x7d; 0x61; 0x38; 0x58; 0x58; 0x37; 0x4a; 0x38;
        0x84; 0xc5; 0x33; 0x2d; 0x1c; 0xdd; 0xee; 0x27].
Proof.
  intros s t. split; [reflexivity |].
  rewrite (constUUID_case_insensitive s t eq_refl); [reflexivity |].
  intros i c d Hi Hc Hd.
  do 36 (destruct i as [| i];
         [cbn in Hc, Hd; injection Hc as <-; injection Hd as <-;
          first [left; reflexivity | right; repeat split; reflexivity] |]).
  exfalso. apply (Nat.lt_irrefl 36).
  eapply Nat.le_lt_trans; [| exact Hi].
  do 36 apply le_n_S. apply Nat.le_0_l.
Defined.

(** X17.  The bytes determine the digits up to case: two arrays that
    [constUUID] turns into the same bytes hold, at every digit position,
    hex digits of the same value. *)
Theorem constUUID_injective_up_to_case (s t : list ascii) (u : media_uuid_t) :
  constUUID s = Ok u -> constUUID t = Ok u ->
  forall i, In i digit_positions ->
    hex_value (nth i s zero) = hex_value (nth i t zero).
Proof.
  intros Hs Ht i Hi.
  pose proof (constUUID_ok_valid s u Hs) as Vs.
  pose proof (constUUID_ok_valid t u Ht) as Vt.
  rewrite (constUUID_valid s Vs) in Hs. rewrite (constUUID_valid t Vt) in Ht.
  assert (Emap : map (byte_at s) byte_positions = map (byte_at t) byte_positions)
    by congruence.
  destruct (digit_position_in_pair i Hi) as (n & Hn & Hin).
  assert (Eb : byte_at s n = byte_at t n).
  { clear - Emap Hn. revert Emap Hn. generalize byte_positions.
    induction l as [| k l IH]; intros Emap Hn; [destruct Hn |].
    cbn [map] in Emap. injection Emap as Ek El.
    destruct Hn as [<- | Hn]; [exact Ek | exact (IH El Hn)]. }
  destruct (valid_pair s n Vs Hn) as (c1 & c2 & H1 & D1 & H2 & D2).
  destruct (valid_pair t n Vt Hn) as (d1 & d2 & K1 & E1 & K2 & E2).
  unfold byte_at in Eb.
  rewrite (nth_error_nth_zero s n c1 H1), (nth_error_nth_zero s (n + 1) c2 H2),
    (nth_error_nth_zero t n d1 K1), (nth_error_nth_zero t (n + 1) d2 K2) in Eb.
  pose proof (hex_value_range c1 D1). pose proof (hex_value_range c2 D2).
  pose proof (hex_value_range d1 E1). pose proof (hex_value_range d2 E2).
  destruct Hin as [-> | ->].
  - rewrite (nth_error_nth_zero s n c1 H1), (nth_error_nth_zero t n d1 K1). lia.
  - rewrite (nth_error_nth_zero s (n + 1) c2 H2),
      (nth_error_nth_zero t (n + 1) d2 K2). lia.
Qed.

Lemma constUUID_injective_up_to_case_witness :
  let s := literal "7D613858-5837-4A38-84C5-332D1CDDEE27" in
  let t := literal "7d613858-5837-4a38-84c5-332d1cddee27" in
  constUUID s = constUUID t /\
  hex_value (nth 1 s zero) = hex_value (nth 1 t zero).
Proof.
  intros s t. split; [reflexivity |].
  apply (constUUID_injective_up_to_case s t
           [0x7d; 0x61; 0x38; 0x58; 0x58; 0x37; 0x4a; 0x38;
            0x84; 0xc5; 0x33; 0x2d; 0x1c; 0xdd; 0xee; 0x27]);
    [reflexivity | reflexivity |].
  apply in_positions. reflexivity.
Defined.

(** X18.  Which rule stops the build: the length is checked first, then
    the separators, then the digits.  An array of another length than 37
    fails the [static_assert] whatever it holds; an array of 37
    characters with a character other than a dash at one of the indices
    8, 13, 18, 23 gives the diagnostic for the format, also when it holds
    bad digits; an array of 37 characters with its four dashes and a
    character that is no hex digit at a digit position gives the
    diagnostic for bad digits. *)
Theorem constUUID_diagnostics (s : list ascii) :
  (length s <> 37%nat ->
   constUUID s = Err (static_assert "uuid: wrong length")) /\
  (length s = 37%nat ->
   (exists i, In i dash_positions /\ nth_error s i <> Some "-"%char) ->
   constUUID s = Err (invalid_uuid_string "Wrong format")) /\
  (length s = 37%nat ->
   (forall i, In i dash_positions -> nth_error s i = Some "-"%char) ->
   (exists i c, In i digit_positions /\ nth_error s i = Some c /\
                is_hex_digit c = false) ->
   constUUID s = Err (invalid_uuid_string "uuid: bad digits")).
Proof.
  split; [| split].
  - intros Hlen. unfold constUUID.
    destruct (Nat.eqb_spec (length s) 37); [contradiction | reflexivity].
  - intros Hlen (i & Hi & Hbad). unfold constUUID. rewrite Hlen.
    cbn [Nat.eqb negb]. rewrite !dash_step.
    assert (Hin : forall n, (n < 37)%nat -> exists c, nth_error s n = Some c).
    { intros n Hn. destruct (nth_error s n) as [c |] eqn:Hc; [eauto |].
      apply nth_error_None in Hc. lia. }
    repeat match goal with
           | |- context [nth_error s ?n] =>
               let c := fresh "c" in let Hc := fresh "Hc" in
               let E := fresh "E" in
               destruct (Hin n) as (c & Hc); [lia |]; rewrite Hc;
               destruct (Ascii.eqb_spec c "-") as [E | E];
               [subst c; cbn [mbind result_mbind] | reflexivity]
           end.
    exfalso. apply Hbad.
    repeat (destruct Hi as [<- | Hi]; [assumption |]). destruct Hi.
  - intros Hlen Hdash (i & c & Hi & Hc & Dc).
    destruct (constUUID s) as [u | e] eqn:Hu.
    + exfalso. destruct (constUUID_ok_valid s u Hu) as (_ & _ & Hdigit).
      destruct (Hdigit i Hi) as (c' & Hc' & Dc'). congruence.
    + revert Hu. unfold constUUID. rewrite Hlen. cbn [Nat.eqb negb].
      rewrite !dash_step.
      rewrite (Hdash 8%nat), (Hdash 13%nat), (Hdash 18%nat), (Hdash 23%nat)
        by (apply in_positions; reflexivity).
      cbn [Ascii.eqb Bool.eqb mbind result_mbind].
      repeat match goal with
             | |- context [_hexByteAt_ s ?n] =>
                 let b := fresh "b" in let Hb := fresh "Hb" in
                 destruct (hexByteAt_outcome s n Hlen) as [(b & Hb) | Hb];
                 [lia | |]; rewrite Hb; cbn [mbind result_mbind];
                 [| intros [= <-]; reflexivity]
             end.
      discriminate.
Qed.

(** A literal with a bad digit and a misplaced dash is reported for its
    format. *)
Remark constUUID_format_before_digits :
  constUUID (literal "zd6138585-837-4a38-84c5-332d1cddee27")
  = Err (invalid_uuid_string "Wrong format").
Proof. vm_compute. reflexivity. Qed.
